(** * Zeal docset registry: a shallow embedding of [src/registry/docsetregistry.cpp]

    The definitions come first, in the order of the source file:
    - [QStr]: the few [QString] operations the registry uses ([indexOf],
      [split], [at], [lastIndexOf]);
    - [Normalize]: [normalizeName] with its regular expression;
    - [Sql]: the rows of a docset database and the meaning of the [LIKE]
      statements the registry sends to it;
    - [Registry]: [DocsetRegistry] itself, with explicit state passing, and the
      hand-off of [_runQuery] to the worker thread as a transition system;
    - [Spec]: what the specification says where the code is compared with
      it, and the order of the results, whose source file is missing;
    - [Samples]: a few docsets to run the definitions on.
    The facts follow: [NormalizeFacts], [SearchFacts], [RegistryFacts],
    [QueueFacts] and [SortFacts]. *)

From Stdlib Require Import ZArith Ascii String List Bool Lia Permutation Sorted.
From stdpp Require Import gmap strings list fin_maps.

Open Scope string_scope.

(** ** QString operations *)
Module QStr.

(** [QString::startsWith], on which [indexOf] and [split] are built. *)
Fixpoint startsWith (p s : string) : bool :=
  match p, s with
  | EmptyString, _ => true
  | String a p', String b s' => if Ascii.eqb a b then startsWith p' s' else false
  | String _ _, EmptyString => false
  end.

(** [s.indexOf(sep)]: position of the first occurrence, [None] for Qt's -1. *)
Fixpoint indexOf_from (i : nat) (sep s : string) : option nat :=
  if startsWith sep s then Some i
  else match s with
       | EmptyString => None
       | String _ s' => indexOf_from (S i) sep s'
       end.

Definition indexOf (s sep : string) : option nat := indexOf_from 0 sep s.

(** [s.split(sep)] for a non-empty [sep] (Qt keeps empty parts by default):
    the text is scanned from the left, every occurrence found closes the
    current segment and the scan resumes after it.  [skip] counts the
    characters of an occurrence still to be passed over. *)
Fixpoint split_go (sep : string) (skip : nat) (s : string) : list string :=
  match s with
  | EmptyString => [EmptyString]
  | String c s' =>
      match skip with
      | S k => split_go sep k s'
      | O =>
          if startsWith sep s
          then EmptyString :: split_go sep (String.length sep - 1) s'
          else match split_go sep 0 s' with
               | seg :: rest => String c seg :: rest
               | [] => [String c EmptyString]
               end
      end
  end.

Definition split (s sep : string) : list string := split_go sep 0 s.

(** [QStringList::join]. *)
Fixpoint join (sep : string) (l : list string) : string :=
  match l with
  | [] => EmptyString
  | [x] => x
  | x :: rest => x ++ sep ++ join sep rest
  end.

(** [l.at(i)]; Qt's [at] must not be called out of range, the registry only
    calls it under a guard that excludes that (see [split_at_least_two]). *)
Definition at_ (l : list string) (i : nat) : string := nth i l EmptyString.

(** [s.endsWith(c)] for one character. *)
Fixpoint endsWithChar (c : ascii) (s : string) : bool :=
  match s with
  | EmptyString => false
  | String a EmptyString => Ascii.eqb a c
  | String _ s' => endsWithChar c s'
  end.

(** The characters of [s] up to its first ["("], and the rest. *)
Fixpoint spanNoParen (s : string) : string * string :=
  match s with
  | EmptyString => (EmptyString, EmptyString)
  | String c s' =>
      if Ascii.eqb c "("%char then (EmptyString, s)
      else let '(a, b) := spanNoParen s' in (String c a, b)
  end.

(** [s.endsWith(suffix)]. *)
Fixpoint endsWith (suffix s : string) : bool :=
  String.eqb suffix s ||
  match s with
  | EmptyString => false
  | String _ s' => endsWith suffix s'
  end.

(** [s.lastIndexOf(sep)]. *)
Fixpoint lastIndexOf_from (i : nat) (sep s : string) (seen : option nat)
    : option nat :=
  let seen' := if startsWith sep s then Some i else seen in
  match s with
  | EmptyString => seen'
  | String _ s' => lastIndexOf_from (S i) sep s' seen'
  end.

Definition lastIndexOf (s sep : string) : option nat :=
  lastIndexOf_from 0 sep s None.

(** Does [c] occur in [s]? *)
Fixpoint hasChar (c : ascii) (s : string) : bool :=
  match s with
  | EmptyString => false
  | String a s' => Ascii.eqb a c || hasChar c s'
  end.

End QStr.

(** ** normalizeName (lines 177-193) *)
Module Normalize.
Import QStr.

(** What [QRegExp("^([^\\(]+)(?:\\(.*\\))?$")] accepts, read off the
    expression: a non-empty group 1 without ["("], then either the end of the
    text or a group that opens with ["("], closes with [")"] and reaches the
    end ([.] of QRegExp matches every character). *)
Inductive matchMethodName_accepts : string -> string -> Prop :=
| accepts_plain g :
    g <> EmptyString -> hasChar "(" g = false ->
    matchMethodName_accepts g g
| accepts_params g inner :
    g <> EmptyString -> hasChar "(" g = false ->
    matchMethodName_accepts (g ++ "(" ++ inner ++ ")") g.

(** [matchMethodName.indexIn(itemName) != -1] together with [cap(1)]: the
    expression is anchored at both ends and group 1 cannot cross a ["("], so
    group 1 is the whole run before the first ["("]. *)
Definition matchMethodName (itemName : string) : option string :=
  let '(g, rest) := spanNoParen itemName in
  match g, rest with
  | EmptyString, _ => None
  | _, EmptyString => Some g
  | _, _ => if endsWithChar ")" rest then Some g else None
  end.

(** Lines 180-182. *)
Definition stripParams (itemName : string) : string :=
  match matchMethodName itemName with
  | Some cap1 => cap1
  | None => itemName
  end.

Definition separators : list string := ["."; "::"; "/"].

(** [itemName.indexOf(sep) != -1 && itemName.indexOf(sep) != 0]. *)
Definition qualifies (itemName sep : string) : bool :=
  match indexOf itemName sep with
  | Some (S _) => true
  | _ => false
  end.

(** [initialParent.isNull()]: a null [QString] is [None]. *)
Definition isNull (q : option string) : bool :=
  match q with
  | None => true
  | Some _ => false
  end.

(** One round of the loop of lines 185-192.  [parentName] holds the empty
    text where the source has a null [QString]. *)
Definition splitStep (initialParent : option string)
    (st : string * string) (sep : string) : string * string :=
  let '(itemName, parentName) := st in
  if qualifies itemName sep && isNull initialParent
  then let splitted := split itemName sep in
       (at_ splitted (List.length splitted - 1),
        at_ splitted (List.length splitted - 2))
  else (itemName, parentName).

(** [normalizeName(itemName, parentName, initialParent)]: the two reference
    parameters are returned as a pair.  The loop runs over all three
    separators, each on the name the previous round left. *)
Definition normalizeName (itemName parentName : string)
    (initialParent : option string) : string * string :=
  fold_left (splitStep initialParent) separators
            (stripParams itemName, parentName).

End Normalize.

(** ** The docset databases and the queries sent to them *)
Module Sql.

(** [Docset::Type]; the registry tests for [Dash] and [ZDash] only, any other
    value of the member falls through both tests. *)
Inductive DocsetType := Dash | ZDash | OtherType.

(** A symbol of a docset: a row of [searchIndex] (Dash: name, type, path), or
    of the join of [ztoken] with its metainformation, file path and token type
    (ZDash: ztokenname, ztypename, zpath, zanchor). *)
Record Row := mkRow {
  col_name : string;
  col_type : string;
  col_path : string;
  col_anchor : string
}.

(** A [QVariant] read from a result column: [None] is SQL's null. *)
Definition QVariant := option string.

Definition toString (v : QVariant) : string :=
  match v with
  | Some s => s
  | None => EmptyString
  end.

(** *** LIKE *)

Inductive Tok := TAny | TOne | TLit (c : ascii) | TBad.

(** The pattern of [x LIKE pattern ESCAPE esc], with ["%"] for any run of
    characters and ["_"] for any one character; the character after [esc]
    stands for itself, and a pattern ending in [esc] matches nothing. *)
Fixpoint tokens (esc : option ascii) (escaped : bool) (p : string) : list Tok :=
  match p with
  | EmptyString => if escaped then [TBad] else []
  | String c p' =>
      if escaped then TLit c :: tokens esc false p'
      else if match esc with Some e => Ascii.eqb c e | None => false end
           then tokens esc true p'
      else if Ascii.eqb c "%" then TAny :: tokens esc false p'
      else if Ascii.eqb c "_" then TOne :: tokens esc false p'
      else TLit c :: tokens esc false p'
  end.

Definition toLower (c : ascii) : ascii :=
  let n := nat_of_ascii c in
  if (65 <=? n)%nat && (n <=? 90)%nat then ascii_of_nat (n + 32) else c.

Fixpoint lower (s : string) : string :=
  match s with
  | EmptyString => EmptyString
  | String c s' => String (toLower c) (lower s')
  end.

(** SQLite compares the letters of a LIKE pattern without regard to case. *)
Fixpoint likeToks (p : list Tok) : string -> bool :=
  match p with
  | [] => fun s => match s with EmptyString => true | _ => false end
  | TBad :: _ => fun _ => false
  | TLit c :: p' =>
      fun s => match s with
               | String d s' => Ascii.eqb (toLower c) (toLower d) && likeToks p' s'
               | EmptyString => false
               end
  | TOne :: p' =>
      fun s => match s with
               | String _ s' => likeToks p' s'
               | EmptyString => false
               end
  | TAny :: p' =>
      fix any (s : string) : bool :=
        likeToks p' s ||
        match s with
        | String _ s' => any s'
        | EmptyString => false
        end
  end.

Definition like (esc : option ascii) (pattern s : string) : bool :=
  likeToks (tokens esc false pattern) s.

Definition backslash : option ascii := Some "\"%char.

(** *** The queries of the registry, by their parts *)

(** [subNames.arg(col, arg)] (lines 112-114), as a test on the value of
    the column: [ or col like '%.arg%' escape '\' or col like '%::arg%' ... ]. *)
Definition subNames (arg col : string) : bool :=
  like backslash ("%." ++ arg ++ "%") col
  || like backslash ("%::" ++ arg ++ "%") col
  || like backslash ("%/" ++ arg ++ "%") col.

(** [(col like 'arg%' escape '\' subNames)]: the parenthesis of the
    queries of lines 129-138, and of [notQuery] (lines 123, 125). *)
Definition nameClause (arg col : string) : bool :=
  like backslash (arg ++ "%") col || subNames arg col.

(** What [docset.db.exec] is asked. *)
Inductive Query :=
| SearchIndex (type : DocsetType) (curQuery : string) (notQuery : option string)
    (** lines 129-138; [notQuery] is [None] for the empty text, [Some p] for
        [ and not (col like 'p%' escape '\' subNames) ] *)
| SamePage (type : DocsetType) (pageUrl : string)
    (** lines 212-219 *)
| NoQuery.
    (** the text stays empty: the type is neither [Dash] nor [ZDash] *)

Definition whereSearch (curQuery : string) (notQuery : option string)
    (r : Row) : bool :=
  nameClause curQuery (col_name r)
  && match notQuery with
     | None => true
     | Some p => negb (nameClause p (col_name r))
     end.

Definition lex (c1 c2 : comparison) : comparison :=
  match c1 with
  | Eq => c2
  | _ => c1
  end.

(** [order by length(name), lower(name) asc, path asc], and [zanchor asc]
    after them for ZDash. *)
Definition orderBy (type : DocsetType) (a b : Row) : comparison :=
  lex (Nat.compare (String.length (col_name a)) (String.length (col_name b)))
 (lex (String.compare (lower (col_name a)) (lower (col_name b)))
 (lex (String.compare (col_path a) (col_path b))
      (match type with
       | ZDash => String.compare (col_anchor a) (col_anchor b)
       | _ => Eq
       end))).

Fixpoint insertRow (type : DocsetType) (r : Row) (l : list Row) : list Row :=
  match l with
  | [] => [r]
  | x :: l' =>
      match orderBy type r x with
      | Gt => x :: insertRow type r l'
      | _ => r :: l
      end
  end.

(** Rows that the ORDER BY clause leaves equal come out in table order. *)
Definition sortRows (type : DocsetType) (l : list Row) : list Row :=
  fold_right (insertRow type) [] l.

(** The columns the two kinds of query select. *)
Definition selectSearch (type : DocsetType) (r : Row) : list QVariant :=
  match type with
  | ZDash => [Some (col_name r); None; Some (col_path r); Some (col_anchor r)]
  | _ => [Some (col_name r); None; Some (col_path r)]
  end.

Definition selectSamePage (type : DocsetType) (r : Row) : list QVariant :=
  match type with
  | ZDash => [Some (col_name r); Some (col_type r); Some (col_path r);
              Some (col_anchor r)]
  | _ => [Some (col_name r); Some (col_type r); Some (col_path r)]
  end.

(** The rows an open database with the given table answers with; the row
    loops of lines 141-146 and 223 read all of them. *)
Definition answer (table : list Row) (q : Query) : list (list QVariant) :=
  match q with
  | SearchIndex type curQuery notQuery =>
      map (selectSearch type)
          (firstn 100 (sortRows type (List.filter (whereSearch curQuery notQuery) table)))
  | SamePage Dash pageUrl =>
      map (selectSamePage Dash)
          (List.filter (fun r => like None (pageUrl ++ "%%") (col_path r)) table)
  | SamePage type pageUrl =>
      map (selectSamePage type)
          (List.filter (fun r => String.eqb (col_path r) pageUrl) table)
  | NoQuery => []
  end.

End Sql.

(** ** DocsetRegistry *)
Module Registry.
Import QStr Normalize Sql.
Local Open Scope list_scope.

(** The members of [Docset] the registry reads.  [db] names the database
    connection the object holds: [None] for a default-constructed
    [QSqlDatabase], and copies of a docset share their connection. *)
Record Docset := mkDocset {
  name : string;
  prefix : string;
  type : DocsetType;
  db : option nat;
  isValid : bool
}.

(** [SearchResult(name, parentName, path, docsetName, query)], in the order
    of the constructor calls of lines 165 and 234. *)
Record SearchResult := mkSearchResult {
  resultName : string;
  parentName : string;
  path : string;
  docsetName : string;
  query : string
}.

(** What the registry uses of a [SearchQuery] built from the raw text
    (lines 95-98, 102). *)
Record SearchQuery := mkSearchQuery {
  sanitizedQuery : string;
  hasDocsetFilter : bool;
  docsetPrefixMatch : string -> bool
}.

(** What the registry is built on and the sources leave open: the parser of
    [SearchQuery], Qt's [qSort] instantiated with [SearchResult::operator<],
    the type member of a default-constructed [Docset] (the one [m_docs[name]]
    inserts for an unknown name), and the table behind each database
    connection. *)
Record Env := mkEnv {
  parseQuery : string -> SearchQuery;
  qSort : list SearchResult -> list SearchResult;
  defaultType : DocsetType;
  tableOf : nat -> list Row
}.

(** What a call does to the outside: the statements it sends to a database,
    the connections it closes, the signal it emits. *)
Inductive Effect :=
| DbExec (conn : option nat) (q : Query)
| DbClose (conn : option nat)
| Emit_queryCompleted.

(** How a call ends.  Every function of the registry returns to its caller;
    [Raised] is there to state what reporting a failure would be. *)
Inductive ErrorKind := NotFound | InvalidDocset.

Inductive Outcome (A : Type) :=
| Returned (a : A)
| Raised (e : ErrorKind).
Arguments Returned {A} a.
Arguments Raised {A} e.

(** The members [m_docs], [m_lastQuery] and [m_queryResults], and with them
    the connections closed so far ([QSqlDatabase] keeps that state outside the
    registry). *)
Record State := mkState {
  m_docs : gmap string Docset;
  m_lastQuery : Z;
  m_queryResults : list SearchResult;
  closedDbs : gset nat
}.

Definition INT_MAX : Z := 2147483647.

Section Operations.
Context (env : Env).

(** Lines 24-37. *)
Definition count (s : State) : nat := size (m_docs s).

Definition contains (name : string) (s : State) : bool :=
  bool_decide (is_Some (m_docs s !! name)).

Definition names (s : State) : list string := (map_to_list (m_docs s)).*1.

(** [Docset()]: texts and connection are default-constructed with it. *)
Definition defaultDocset : Docset :=
  mkDocset EmptyString EmptyString (defaultType env) None false.

(** [m_docs[name]] of a map that is not const: an unknown name is first
    entered with a default-constructed docset. *)
Definition subscript (name : string) (docs : gmap string Docset)
    : Docset * gmap string Docset :=
  match docs !! name with
  | Some d => (d, docs)
  | None => (defaultDocset, <[name := defaultDocset]> docs)
  end.

(** [db.close()]. *)
Definition close (conn : option nat) (closed : gset nat) : gset nat :=
  match conn with
  | Some c => {[c]} ∪ closed
  | None => closed
  end.

(** [db.exec(q)]: a connection that is closed, or none at all, yields a
    query without rows. *)
Definition exec (closed : gset nat) (conn : option nat) (q : Query)
    : list (list QVariant) :=
  match conn with
  | Some c => if decide (c ∈ closed) then [] else answer (tableOf env c) q
  | None => []
  end.

(** Lines 39-44. *)
Definition remove (name : string) (s : State) : State * list Effect :=
  let '(d, docs) := subscript name (m_docs s) in
  ({| m_docs := delete name docs;
      m_lastQuery := m_lastQuery s;
      m_queryResults := m_queryResults s;
      closedDbs := close (db d) (closedDbs s) |},
   [DbClose (db d)]).

(** Lines 46-50. *)
Definition clear (s : State) : State * list Effect :=
  fold_left (fun acc key =>
               let '(s', fx) := remove key (fst acc) in (s', snd acc ++ fx))
            (names s) (s, []).

(** Lines 52-55. *)
Definition docsets (s : State) : list Docset := (map_to_list (m_docs s)).*2.

(** Lines 57-69, from line 60 on: [docset] is the object line 59 constructs
    from the path. *)
Definition addDocset (docset : Docset) (s : State)
    : Outcome (State * list Effect) :=
  if negb (isValid docset) then Returned (s, [])
  else
    let '(s1, fx) :=
      if contains (name docset) s then remove (name docset) s else (s, []) in
    Returned ({| m_docs := <[name docset := docset]> (m_docs s1);
                 m_lastQuery := m_lastQuery s1;
                 m_queryResults := m_queryResults s1;
                 closedDbs := closedDbs s1 |},
              fx).

(** Lines 71-74. *)
Definition entry (name : string) (s : State) : Docset * State :=
  let '(d, docs) := subscript name (m_docs s) in
  (d, {| m_docs := docs;
         m_lastQuery := m_lastQuery s;
         m_queryResults := m_queryResults s;
         closedDbs := closedDbs s |}).

(** [m_lastQuery += 1] on an [int]: the sum is undefined at [INT_MAX]. *)
Definition increment (n : Z) : option Z :=
  if (n <? INT_MAX)%Z then Some (n + 1)%Z else None.

Definition setLastQuery (n : Z) (s : State) : State :=
  {| m_docs := m_docs s;
     m_lastQuery := n;
     m_queryResults := m_queryResults s;
     closedDbs := closedDbs s |}.

(** Lines 83-86. *)
Definition invalidateQueries (s : State) : option State :=
  n ← increment (m_lastQuery s); Some (setLastQuery n s).

(** *** The search of one docset (lines 105-151) *)

(** The statement of one round of the loop (lines 116-139). *)
Definition searchStatement (type : DocsetType) (preparedQuery : string)
    (withSubStrings : bool) : Query :=
  let curQuery :=
    if withSubStrings then ("%" ++ preparedQuery)%string else preparedQuery in
  let notQuery := if withSubStrings then Some preparedQuery else None in
  match type with
  | Dash | ZDash => SearchIndex type curQuery notQuery
  | OtherType => NoQuery
  end.

(** [while (found.size() < 100) { ... }]: [fuel] bounds the rounds, two are
    enough (see [searchLoop_fuel]). *)
Fixpoint searchLoop (fuel : nat) (closed : gset nat) (docset : Docset)
    (preparedQuery : string) (found : list (list QVariant))
    (withSubStrings : bool) : list (list QVariant) * list Effect :=
  match fuel with
  | O => (found, [])
  | S fuel' =>
      if (List.length found <? 100)%nat then
        let q := searchStatement (type docset) preparedQuery withSubStrings in
        let found' := found ++ exec closed (db docset) q in
        if withSubStrings then (found', [DbExec (db docset) q])
        else
          let '(r, fx) := searchLoop fuel' closed docset preparedQuery found' true in
          (r, DbExec (db docset) q :: fx)
      else (found, [])
  end.

Definition searchDocset (closed : gset nat) (docset : Docset)
    (preparedQuery : string) : list (list QVariant) * list Effect :=
  searchLoop 2 closed docset preparedQuery [] false.

(** [row[i]]. *)
Definition column (row : list QVariant) (i : nat) : QVariant := nth i row None.

(** Lines 153-167 for one row.  [row[1].toString()] of a null column is a
    null [QString]. *)
Definition resultOfRow (docset : Docset) (preparedQuery : string)
    (row : list QVariant) : SearchResult :=
  let parentName := match column row 1 with
                    | Some p => p
                    | None => EmptyString
                    end in
  let path := toString (column row 2) in
  let path := match type docset with
              | ZDash => (path ++ "#" ++ toString (column row 3))%string
              | _ => path
              end in
  let itemName := toString (column row 0) in
  let '(itemName, parentName) := normalizeName itemName parentName (column row 1) in
  mkSearchResult itemName parentName path (name docset) preparedQuery.

(** The body of the loop over the docsets (lines 100-168) for one docset. *)
Definition searchOne (closed : gset nat) (query : SearchQuery) (docset : Docset)
    : list SearchResult * list Effect :=
  if hasDocsetFilter query && negb (docsetPrefixMatch query (prefix docset))
  then ([], [])
  else
    let '(found, fx) := searchDocset closed docset (sanitizedQuery query) in
    (map (resultOfRow docset (sanitizedQuery query)) found, fx).

(** Lines 94-168: the results before they are sorted. *)
Definition accumulate (s : State) (rawQuery : string)
    : list SearchResult * list Effect :=
  let query := parseQuery env rawQuery in
  fold_left (fun acc docset =>
               let '(rs, fx) := searchOne (closedDbs s) query docset in
               (fst acc ++ rs, snd acc ++ fx))
            (docsets s) ([], []).

(** Lines 88-169, up to the second test of [m_lastQuery]: [None] when the
    call returns at line 92. *)
Definition _runQuery_search (rawQuery : string) (queryNum : Z) (s : State)
    : option (list SearchResult * list Effect) :=
  if decide (queryNum ≠ m_lastQuery s) then None
  else let '(results, fx) := accumulate s rawQuery in
       Some (qSort env results, fx).

(** Lines 170-174. *)
Definition _runQuery_publish (results : list SearchResult) (queryNum : Z)
    (s : State) : State * list Effect :=
  if decide (queryNum ≠ m_lastQuery s) then (s, [])
  else ({| m_docs := m_docs s;
           m_lastQuery := m_lastQuery s;
           m_queryResults := results;
           closedDbs := closedDbs s |},
        [Emit_queryCompleted]).

(** [_runQuery] when nothing else runs in between. *)
Definition _runQuery (rawQuery : string) (queryNum : Z) (s : State)
    : State * list Effect :=
  match _runQuery_search rawQuery queryNum s with
  | None => (s, [])
  | Some (results, fx) =>
      let '(s', fx') := _runQuery_publish results queryNum s in (s', fx ++ fx')
  end.

(** *** relatedLinks (lines 200-238) *)

(** [QUrl::setFragment(NULL)] and back to text: the part before the first
    ["#"]. *)
Fixpoint withoutFragment (path : string) : string :=
  match path with
  | EmptyString => EmptyString
  | String c rest =>
      if Ascii.eqb c "#" then EmptyString else String c (withoutFragment rest)
  end.

Definition relatedStatement (type : DocsetType) (pageUrl : string) : Query :=
  match type with
  | Dash | ZDash => SamePage type pageUrl
  | OtherType => NoQuery
  end.

(** Lines 224-234 for one row; the parent [normalizeName] computes is not
    passed on. *)
Definition relatedOfRow (entry : Docset) (name : string)
    (row : list QVariant) : SearchResult :=
  let sectionName := toString (column row 0) in
  let sectionPath := toString (column row 2) in
  let parentName := EmptyString in
  let sectionPath := match type entry with
                     | ZDash => (sectionPath ++ "#" ++ toString (column row 3))%string
                     | _ => sectionPath
                     end in
  let '(sectionName, parentName) := normalizeName sectionName parentName None in
  mkSearchResult sectionName EmptyString sectionPath name EmptyString.

(** [Docset entry = m_docs[name]] (line 207) is the subscript of [entry]
    above, with what it does to [m_docs]. *)
Definition relatedLinks (name path : string) (s : State)
    : Outcome (list SearchResult) * State * list Effect :=
  let pageUrl := withoutFragment path in
  let '(entry, s1) := entry name s in
  let q := relatedStatement (type entry) pageUrl in
  let rows := exec (closedDbs s1) (db entry) q in
  (Returned (map (relatedOfRow entry name) rows), s1, [DbExec (db entry) q]).

End Operations.

(** *** The hand-off of queries to the worker thread *)

(** [runQuery] runs in the thread of its caller and posts [_runQuery] to the
    thread the registry lives in (lines 76-81, 15-22); that thread takes the
    posted calls one at a time, in the order they were posted.  [running]
    holds a call of [_runQuery] that has computed its results and has not yet
    reached line 170: callers may come in between line 92 and line 170, and
    lines 170-174 are one step of the worker. *)
Record System := mkSystem {
  registry : State;
  posted : list (string * Z);
  running : option (list SearchResult * Z)
}.

Inductive Event :=
| CallRunQuery (query : string)
| CallInvalidateQueries
| CallAddDocset (docset : Docset)
| CallRemove (name : string)
| WorkerStarts
| WorkerFinishes.


Section Steps.
Context (env : Env).

(** Lines 76-81. *)
Definition runQuery (query : string) (sys : System) : option System :=
  n ← increment (m_lastQuery (registry sys));
  Some {| registry := setLastQuery n (registry sys);
          posted := posted sys ++ [(query, n)];
          running := running sys |}.

(** One event; [None] where the event cannot happen (the worker has nothing
    to start or to finish) or the counter would overflow. *)
Definition step (e : Event) (sys : System) : option System :=
  match e with
  | CallRunQuery query => runQuery query sys
  | CallInvalidateQueries =>
      r ← invalidateQueries (registry sys);
      Some {| registry := r; posted := posted sys; running := running sys |}
  | CallAddDocset docset =>
      match addDocset env docset (registry sys) with
      | Returned (r, _) =>
          Some {| registry := r; posted := posted sys; running := running sys |}
      | Raised _ => None
      end
  | CallRemove name =>
      Some {| registry := fst (remove env name (registry sys));
              posted := posted sys; running := running sys |}
  | WorkerStarts =>
      match running sys, posted sys with
      | None, (rawQuery, queryNum) :: rest =>
          Some {| registry := registry sys;
                  posted := rest;
                  running :=
                    match _runQuery_search env rawQuery queryNum (registry sys) with
                    | Some (results, _) => Some (results, queryNum)
                    | None => None
                    end |}
      | _, _ => None
      end
  | WorkerFinishes =>
      match running sys with
      | Some (results, queryNum) =>
          Some {| registry := fst (_runQuery_publish results queryNum (registry sys));
                  posted := posted sys;
                  running := None |}
      | None => None
      end
  end.

Fixpoint run (events : list Event) (sys : System) : option System :=
  match events with
  | [] => Some sys
  | e :: rest => sys' ← step e sys; run rest sys'
  end.


(** What holds of a system however it got where it is (see
    [consistent_step]): no call, posted or running, carries a number above
    [m_lastQuery]. *)
Definition consistent (sys : System) : Prop :=
  Forall (fun call => (snd call <= m_lastQuery (registry sys))%Z) (posted sys)
  /\ match running sys with
     | Some (_, queryNum) => (queryNum <= m_lastQuery (registry sys))%Z
     | None => True
     end.


End Steps.

End Registry.

(** ** The specification's reading, where it is compared with the code *)
Module Spec.
Import QStr Normalize Sql Registry.
Local Open Scope list_scope.

(** [s] cut at the last occurrence of [sep]: what stands before it and what
    stands after it. *)
Definition cutAtLast (s sep : string) : option (string * string) :=
  match lastIndexOf s sep with
  | Some i =>
      let j := i + String.length sep in
      Some (substring 0 i s, substring j (String.length s - j) s)
  | None => None
  end.

(** "split on the last occurrence, producing parentName = the segment
    immediately before the final separator, displayName = the segment after
    it": the pair (displayName, parentName). *)
Definition splitOnLast (s sep : string) : string * string :=
  match cutAtLast s sep with
  | Some (front, display) =>
      (display,
       match cutAtLast front sep with
       | Some (_, segment) => segment
       | None => front
       end)
  | None => (s, EmptyString)
  end.

(** "for the first separator that (a) occurs in the name and (b) does not
    occur at position 0, split on the last occurrence [...] If no separator
    qualifies, parentName stays absent and displayName is the stripped name
    unchanged": one separator at most is used. *)
Definition firstSeparatorOnly (rawName : string) : string * string :=
  let s := stripParams rawName in
  match List.filter (qualifies s) separators with
  | sep :: _ => splitOnLast s sep
  | [] => (s, EmptyString)
  end.

(** A three-way comparison that ranks its type: turning the arguments around
    turns the verdict around, items that compare equal compare alike with
    every third, and less-than is transitive. *)
Class Ranking {A : Type} (cmp : A -> A -> comparison) : Prop := {
  ranking_opp : forall x y, cmp x y = CompOpp (cmp y x);
  ranking_eq : forall x y z, cmp x y = Eq -> cmp x z = cmp y z;
  ranking_lt : forall x y z, cmp x y = Lt -> cmp y z = Lt -> cmp x z = Lt
}.

(** Modelled from the spec: [SearchResult::operator<], which [qSort] of
    line 169 sorts by and whose file (searchresult.cpp) is not among the
    sources; the spec has "ascending name length, then case-insensitive name,
    then docset name, then path". *)
Definition compareResults (a b : SearchResult) : comparison :=
  lex (Nat.compare (String.length (resultName a)) (String.length (resultName b)))
 (lex (String.compare (lower (resultName a)) (lower (resultName b)))
 (lex (String.compare (docsetName a) (docsetName b))
      (String.compare (path a) (path b)))).

Definition lessThan (a b : SearchResult) : bool :=
  match compareResults a b with
  | Lt => true
  | _ => false
  end.




(** [a] stands somewhere before [b] in [l]. *)
Definition before (a b : SearchResult) (l : list SearchResult) : Prop :=
  exists l1 l2 l3, l = l1 ++ a :: l2 ++ b :: l3.


(** Two sorts by [lessThan]: insertion from the right end keeps equal items
    in their order, and the same after a reversal turns them around. *)
Fixpoint insertResult (r : SearchResult) (l : list SearchResult)
    : list SearchResult :=
  match l with
  | [] => [r]
  | x :: l' => if lessThan x r then x :: insertResult r l' else r :: l
  end.

Definition insertionSort (l : list SearchResult) : list SearchResult :=
  fold_right insertResult [] l.


End Spec.

(** ** Sample docsets *)
Module Samples.
Import QStr Normalize Sql Registry Spec.
Local Open Scope list_scope.

(** A parser for texts without a docset filter and without characters to
    escape. *)
Definition plainQuery (raw : string) : SearchQuery :=
  mkSearchQuery raw false (fun _ => true).

Definition javaTable : list Row :=
  [mkRow "List" "Class" "list.html" "";
   mkRow "ArrayList" "Class" "arraylist.html" "";
   mkRow "ListIterator" "Interface" "listiterator.html" "";
   mkRow "util.ListUtils" "Class" "listutils.html" ""].

Definition cppTable : list Row :=
  [mkRow "reader.run" "Method" "run.html" "";
   mkRow "writer.run" "Method" "run.html" "";
   mkRow "std::vector::push_back" "Method" "vector.html" "push_back"].

(** A hundred symbols that all start with the same word. *)
Definition crowdedTable : list Row :=
  map (fun i => mkRow (String.concat "" ("List" :: repeat "x" i)) "Class" "crowd.html" "")
      (seq 0 100).

Definition tables (conn : nat) : list Row :=
  match conn with
  | 1 => javaTable
  | 2 => cppTable
  | 4 => crowdedTable ++ [mkRow "ArrayList" "Class" "arraylist.html" ""]
  | _ => []
  end.

Definition env : Env := mkEnv plainQuery insertionSort OtherType tables.


Definition java : Docset := mkDocset "Java" "java" Dash (Some 1) true.
Definition cpp : Docset := mkDocset "C++" "cpp" ZDash (Some 2) true.
Definition cppDash : Docset := mkDocset "C++" "cpp" Dash (Some 2) true.
Definition javaAgain : Docset := mkDocset "Java" "java" Dash (Some 3) true.
Definition broken : Docset := mkDocset "Broken" "" OtherType None false.
Definition crowded : Docset := mkDocset "Crowd" "crowd" Dash (Some 4) true.

Definition empty : State := mkState ∅ 0 [] ∅.

Definition withJava : State := mkState {[ "Java" := java ]} 0 [] ∅.

Definition withCpp : State := mkState {[ "C++" := cppDash ]} 0 [] ∅.


(** Two queries posted one after the other, and the system once the worker
    is through with both. *)
Definition twoPosted : System :=
  mkSystem (setLastQuery 2 withJava) [("array", 1%Z); ("list", 2%Z)] None.


Definition readerRun : SearchResult :=
  mkSearchResult "run" "reader" "run.html" "C++" "run".


End Samples.

(** ** The docset folders (lines 240-260) *)
Module Folders.
Import QStr Registry.
Local Open Scope list_scope.

(** [QFileInfo::suffix()]: what follows the last ["."] of the name. *)
Definition suffix (fileName : string) : string :=
  match lastIndexOf fileName "." with
  | Some i => substring (S i) (String.length fileName - S i) fileName
  | None => EmptyString
  end.

(** A folder: the directories [entryInfoList(NoDotAndDotDot | AllDirs)]
    finds in it, each with its name. *)
#[local] Set Warnings "-register-all".
Inductive Dir := Folder (subdirs : list (string * Dir)).
#[local] Set Warnings "register-all".

(** [subdir.absoluteFilePath()] for a directory of [folder]. *)
Definition absoluteFilePath (folder dirName : string) : string :=
  (folder ++ "/" ++ dirName)%string.

(** What the registry finds outside: the docset [Docset(path)] constructs,
    the folder behind a path (an empty one where there is none), the
    directory of the application and whether it has a directory [docsets]. *)
Record Disk := mkDisk {
  loadDocset : string -> Docset;
  folderAt : string -> Dir;
  applicationDirPath : string;
  hasDocsetsDir : bool
}.

Section Scan.
Context (env : Env) (disk : Disk).

(** [QMetaObject::invokeMethod(this, "addDocset", Qt::BlockingQueuedConnection,
    path)]: the caller waits until [addDocset] has run in the thread of the
    registry.  Calls of [_runQuery] posted before it run there first; they
    are not part of this function. *)
Definition invokeAddDocset (path : string) (acc : State * list Effect)
    : State * list Effect :=
  match addDocset env (loadDocset disk path) (fst acc) with
  | Returned (s, fx) => (s, snd acc ++ fx)
  | Raised _ => acc
  end.

(** Lines 241-251. *)
Fixpoint addDocsetsFromFolder (path : string) (folder : Dir)
    (acc : State * list Effect) {struct folder} : State * list Effect :=
  match folder with
  | Folder subdirs =>
      (fix each (l : list (string * Dir)) (acc : State * list Effect) :=
         match l with
         | [] => acc
         | (dirName, subdir) :: rest =>
             each rest
               (if String.eqb (suffix dirName) "docset"
                then invokeAddDocset (absoluteFilePath path dirName) acc
                else addDocsetsFromFolder (absoluteFilePath path dirName) subdir acc)
         end) subdirs acc
  end.

(** Lines 253-260. *)
Definition initialiseDocsets (path : string) (s : State) : State * list Effect :=
  let acc := clear env s in
  let acc := addDocsetsFromFolder path (folderAt disk path) acc in
  if hasDocsetsDir disk
  then let appDir := absoluteFilePath (applicationDirPath disk) "docsets" in
       addDocsetsFromFolder appDir (folderAt disk appDir) acc
  else acc.

End Scan.

(** The directories a walk from [path] hands to [addDocset], in the order of
    the walk: those whose suffix is [docset], and nothing below them. *)
Fixpoint docsetPaths (path : string) (folder : Dir) {struct folder} : list string :=
  match folder with
  | Folder subdirs =>
      (fix each (l : list (string * Dir)) : list string :=
         match l with
         | [] => []
         | (dirName, subdir) :: rest =>
             (if String.eqb (suffix dirName) "docset"
              then [absoluteFilePath path dirName]
              else docsetPaths (absoluteFilePath path dirName) subdir)
             ++ each rest
         end) subdirs
  end.

End Folders.

(** ** Notions the facts below are stated with *)
Module Shape.
Import QStr Sql Registry.
Local Open Scope list_scope.

(** Every docset is filed under its own name. *)
Definition keyedByName (s : State) : Prop :=
  forall key d, m_docs s !! key = Some d -> name d = key.

(** The pattern that stands for the characters of [term] themselves. *)
Definition literal (term : string) : list Tok :=
  map TLit (list_ascii_of_string term).


(** The maps [addDocset] builds for a list of docsets, one after the other. *)
Definition overwriteAll (docs : gmap string Docset) (l : list Docset)
    : gmap string Docset :=
  fold_left (fun m d => if isValid d then <[name d := d]> m else m) l docs.


(** The posted calls carry rising numbers, and a running call a number below
    all of them. *)
Definition numbered (sys : System) : Prop :=
  StronglySorted Z.lt (map snd (posted sys))
  /\ match running sys with
     | Some (_, queryNum) => Forall (fun call => (queryNum < snd call)%Z) (posted sys)
     | None => True
     end.


End Shape.

(** ** More samples *)
Module MoreSamples.
Import QStr Sql Registry Spec Folders Samples.
Local Open Scope list_scope.

Definition python : Docset := mkDocset "Python" "python" Dash (Some 5) true.

(** A docset folder with two docsets, one of them two levels down, a folder
    that only looks like one from inside, and a docset that does not load. *)
Definition dataFolder : Dir :=
  Folder [("Java.docset", Folder [("Contents", Folder [("Inner.docset", Folder [])])]);
          ("extra", Folder [("C++.docset", Folder [])]);
          ("Broken.docset", Folder [])].

Definition disk : Disk :=
  mkDisk (fun path =>
            if String.eqb path "/data/Java.docset" then java
            else if String.eqb path "/data/extra/C++.docset" then cpp
            else if String.eqb path "/app/docsets/Python.docset" then python
            else broken)
         (fun path =>
            if String.eqb path "/data" then dataFolder
            else if String.eqb path "/app/docsets"
                 then Folder [("Python.docset", Folder [])]
            else Folder [])
         "/app" true.

Definition withBoth : State :=
  mkState (<["C++" := cpp]> {[ "Java" := java ]}) 3 [readerRun] ∅.

End MoreSamples.

(** * Facts *)

(** ** Name normalisation *)
Module NormalizeFacts.
Import QStr Normalize Spec.
Local Open Scope list_scope.
Local Arguments String.append !_ _ /.

Lemma spanNoParen_plain g :
  hasChar "(" g = false -> spanNoParen g = (g, EmptyString).
Proof.
  induction g as [|c g IH]; simpl; [reflexivity|].
  destruct (Ascii.eqb c "(") eqn:E; simpl; [discriminate|].
  intros H. rewrite (IH H). reflexivity.
Qed.

Lemma spanNoParen_app g rest :
  hasChar "(" g = false ->
  spanNoParen (g ++ String "(" rest) = (g, String "(" rest).
Proof.
  induction g as [|c g IH]; simpl; [reflexivity|].
  destruct (Ascii.eqb c "(") eqn:E; simpl; [discriminate|].
  intros H. rewrite (IH H). reflexivity.
Qed.

Lemma spanNoParen_inv s g rest :
  spanNoParen s = (g, rest) ->
  s = (g ++ rest)%string /\ hasChar "(" g = false /\
  (rest = EmptyString \/ exists r, rest = String "(" r).
Proof.
  revert g rest. induction s as [|c s IH]; simpl; intros g rest H.
  - inversion H; subst. auto.
  - destruct (Ascii.eqb c "(") eqn:E.
    + apply Ascii.eqb_eq in E. subst c. inversion H; subst. simpl. eauto.
    + destruct (spanNoParen s) as [a b] eqn:Hs. inversion H; subst.
      destruct (IH a rest eq_refl) as (-> & Ha & Hr).
      simpl. rewrite E, Ha. auto.
Qed.

Lemma endsWithChar_app c s : endsWithChar c (s ++ String c EmptyString) = true.
Proof.
  induction s as [|a s IH]; simpl; [apply Ascii.eqb_refl|].
  destruct (s ++ String c EmptyString)%string eqn:E; [|exact IH].
  destruct s; discriminate.
Qed.

Lemma endsWithChar_inv c s :
  endsWithChar c s = true -> exists s0, s = (s0 ++ String c EmptyString)%string.
Proof.
  induction s as [|a s IH]; simpl; [discriminate|].
  destruct s as [|b s'].
  - intros H. apply Ascii.eqb_eq in H. subst. exists EmptyString. reflexivity.
  - intros H. destruct (IH H) as [s0 Hs0]. exists (String a s0).
    simpl. rewrite Hs0. reflexivity.
Qed.

Lemma append_assoc (a b c : string) : ((a ++ b) ++ c = a ++ (b ++ c))%string.
Proof. induction a as [|x a IH]; simpl; [reflexivity|]. now rewrite IH. Qed.

Lemma append_nil_r (a : string) : (a ++ EmptyString)%string = a.
Proof. induction a as [|x a IH]; simpl; [reflexivity|]. now rewrite IH. Qed.

(** The function agrees with the regular expression. *)
Lemma matchMethodName_spec s g :
  matchMethodName s = Some g <-> matchMethodName_accepts s g.
Proof.
  split.
  - unfold matchMethodName. destruct (spanNoParen s) as [a rest] eqn:Hs.
    destruct (spanNoParen_inv _ _ _ Hs) as (-> & Ha & Hr).
    destruct a as [|c a]; [discriminate|].
    destruct rest as [|d rest].
    + intros H. inversion H; subst. rewrite append_nil_r.
      constructor; [discriminate|exact Ha].
    + destruct (endsWithChar ")" (String d rest)) eqn:He; [|discriminate].
      intros H. inversion H; subst.
      destruct Hr as [Hr|[r Hr]]; [discriminate|]. inversion Hr; subst.
      destruct (endsWithChar_inv _ _ He) as [s0 Hs0].
      destruct s0 as [|e s0]; [discriminate|]. simpl in Hs0.
      inversion Hs0; subst.
      apply (accepts_params (String c a) s0); [discriminate|exact Ha].
  - intros H. destruct H as [g Hne Hp | g inner Hne Hp]; unfold matchMethodName.
    + rewrite (spanNoParen_plain _ Hp). destruct g; [congruence|reflexivity].
    + change (g ++ "(" ++ inner ++ ")")%string
        with (g ++ String "(" (inner ++ ")"))%string.
      rewrite (spanNoParen_app _ _ Hp). destruct g; [congruence|].
      change (String "(" (inner ++ ")"))%string
        with (String "(" inner ++ String ")" EmptyString)%string.
      now rewrite endsWithChar_app.
Qed.

Lemma stripParams_plain g : hasChar "(" g = false -> stripParams g = g.
Proof.
  intros H. unfold stripParams, matchMethodName.
  rewrite (spanNoParen_plain _ H). now destruct g.
Qed.

Lemma stripParams_params g inner :
  g <> EmptyString -> hasChar "(" g = false ->
  stripParams (g ++ "(" ++ inner ++ ")") = g.
Proof.
  intros Hne Hp. unfold stripParams.
  assert (H : matchMethodName (g ++ "(" ++ inner ++ ")") = Some g)
    by (apply matchMethodName_spec; now constructor).
  now rewrite H.
Qed.

Lemma stripParams_leading_paren rest : stripParams (String "(" rest) = String "(" rest.
Proof. reflexivity. Qed.

Lemma endsWithChar_skip c g rest :
  rest <> EmptyString -> endsWithChar c (g ++ rest) = endsWithChar c rest.
Proof.
  intros Hne. induction g as [|a g IH]; simpl; [reflexivity|].
  destruct (g ++ rest)%string eqn:E; [|exact IH].
  destruct g; simpl in E; [congruence|discriminate].
Qed.

Lemma stripParams_open_end s : endsWithChar ")" s = false -> stripParams s = s.
Proof.
  intros He. unfold stripParams, matchMethodName.
  destruct (spanNoParen s) as [a rest] eqn:Hs.
  destruct (spanNoParen_inv _ _ _ Hs) as (-> & Ha & Hr).
  destruct a as [|c a]; [reflexivity|].
  destruct rest as [|d rest]; [now rewrite append_nil_r|].
  rewrite endsWithChar_skip in He by discriminate. now rewrite He.
Qed.

(** Splitting never brings in a character the name did not have. *)
Lemma split_go_hasChar c sep k s :
  hasChar c s = false -> Forall (fun seg => hasChar c seg = false) (split_go sep k s).
Proof.
  revert k. induction s as [|a s IH]; cbn [split_go hasChar]; intros k H.
  - repeat constructor.
  - apply orb_false_iff in H as [Ha Hs].
    destruct k as [|k]; [|now apply IH].
    destruct (startsWith sep (String a s)).
    + constructor; [reflexivity|now apply IH].
    + specialize (IH 0 Hs). destruct (split_go sep 0 s) as [|seg rest].
      * repeat constructor. cbn [hasChar]. now rewrite Ha.
      * inversion IH; subst.
        constructor; [cbn [hasChar]; now rewrite Ha|assumption].
Qed.

Lemma split_go_nonempty sep k s : split_go sep k s <> [].
Proof.
  revert k. induction s as [|a s IH]; cbn [split_go]; intros k; [discriminate|].
  destruct k as [|k]; [|apply IH].
  destruct (startsWith sep (String a s)); [discriminate|].
  destruct (split_go sep 0 s); discriminate.
Qed.

Lemma split_go_cons_length sep c s :
  List.length (match split_go sep 0 s with
               | seg :: rest => String c seg :: rest
               | [] => [String c EmptyString]
               end) = List.length (split_go sep 0 s).
Proof.
  pose proof (split_go_nonempty sep 0 s).
  destruct (split_go sep 0 s); [congruence|reflexivity].
Qed.

Lemma indexOf_from_split sep s j i :
  sep <> EmptyString -> indexOf_from j sep s = Some i ->
  2 <= List.length (split_go sep 0 s).
Proof.
  intros Hsep. revert j.
  induction s as [|a s IH]; intros j; cbn [indexOf_from split_go].
  - destruct sep; [congruence|]. cbn. discriminate.
  - destruct (startsWith sep (String a s)).
    + intros _. cbn [List.length].
      pose proof (split_go_nonempty sep (String.length sep - 1) s).
      destruct (split_go sep (String.length sep - 1) s); [congruence|cbn; lia].
    + intros H. rewrite split_go_cons_length. exact (IH _ H).
Qed.

(** The guard of line 187 keeps [at(size-2)] in range. *)
Lemma split_at_least_two s sep i :
  sep <> EmptyString -> indexOf s sep = Some i -> 2 <= List.length (split s sep).
Proof. intros Hsep H. exact (indexOf_from_split _ _ _ _ Hsep H). Qed.

Lemma last_two (l : list string) :
  2 <= List.length l ->
  exists front a b,
    l = front ++ [a; b] /\
    at_ l (List.length l - 1) = b /\ at_ l (List.length l - 2) = a.
Proof.
  intros H.
  destruct (exists_last (l := l)) as (l1 & b & ->); [destruct l; cbn in H; [lia|discriminate]|].
  rewrite length_app in H. cbn in H.
  destruct (exists_last (l := l1)) as (front & a & ->); [destruct l1; cbn in H; [lia|discriminate]|].
  exists front, a, b. rewrite <- app_assoc. cbn [app].
  repeat split; unfold at_.
  - rewrite length_app. cbn [List.length].
    replace (List.length front + 2 - 1) with (List.length front + 1) by lia.
    rewrite app_nth2 by lia.
    replace (List.length front + 1 - List.length front) with 1 by lia. reflexivity.
  - rewrite length_app. cbn [List.length].
    replace (List.length front + 2 - 2) with (List.length front) by lia.
    rewrite app_nth2 by lia. rewrite Nat.sub_diag. reflexivity.
Qed.

Lemma startsWith_inv p s :
  startsWith p s = true -> exists rest, s = (p ++ rest)%string.
Proof.
  revert s. induction p as [|a p IH]; intros s; cbn [startsWith].
  - exists s. reflexivity.
  - destruct s as [|b s]; [discriminate|].
    destruct (Ascii.eqb a b) eqn:E; [|discriminate].
    apply Ascii.eqb_eq in E. subst b. intros H.
    destruct (IH _ H) as [rest ->]. exists rest. reflexivity.
Qed.

Lemma split_go_skip sep pre s :
  split_go sep (String.length pre) (pre ++ s) = split_go sep 0 s.
Proof. induction pre as [|a pre IH]; cbn; [reflexivity|exact IH]. Qed.

Lemma join_cons sep c seg rest :
  join sep (String c seg :: rest) = String c (join sep (seg :: rest)).
Proof. destruct rest; reflexivity. Qed.

Lemma join_more sep x l :
  l <> [] -> join sep (x :: l) = (x ++ sep ++ join sep l)%string.
Proof. destruct l; [congruence|reflexivity]. Qed.

Lemma length_append (front back : string) :
  String.length (front ++ back) = String.length front + String.length back.
Proof. induction front as [|x front IH]; cbn; [|rewrite IH]; reflexivity. Qed.

(** The segments, put together again with the separator between them, are
    the text that was split. *)
Lemma split_join s sep :
  sep <> EmptyString -> join sep (split s sep) = s.
Proof.
  intros Hsep. unfold split.
  remember (String.length s) as n eqn:Hn.
  assert (Hle : String.length s <= n) by lia. clear Hn.
  revert s Hle. induction n as [|n IH]; intros s Hle.
  - destruct s; [reflexivity|cbn in Hle; lia].
  - destruct s as [|a s]; [reflexivity|].
    cbn [split_go]. destruct (startsWith sep (String a s)) eqn:E.
    + destruct (startsWith_inv _ _ E) as [rest Hrest].
      destruct sep as [|b sep']; [congruence|].
      cbn in Hrest. inversion Hrest; subst a s.
      replace (String.length (String b sep') - 1) with (String.length sep')
        by (cbn [String.length]; lia).
      rewrite split_go_skip.
      rewrite join_more by apply split_go_nonempty.
      rewrite IH; [reflexivity|].
      cbn in Hle. rewrite length_append in Hle. lia.
    + pose proof (split_go_nonempty sep 0 s) as Hne.
      specialize (IH s ltac:(cbn in Hle; lia)).
      destruct (split_go sep 0 s) as [|seg l]; [congruence|].
      rewrite join_cons, IH. reflexivity.
Qed.

Lemma indexOf_from_None sep s i j :
  indexOf_from i sep s = None -> indexOf_from j sep s = None.
Proof.
  revert i j. induction s as [|a s IH]; intros i j; cbn [indexOf_from].
  - destruct (startsWith sep EmptyString); [discriminate|reflexivity].
  - destruct (startsWith sep (String a s)); [discriminate|]. apply IH.
Qed.

Lemma startsWith_app p s t :
  startsWith p s = true -> startsWith p (s ++ t) = true.
Proof.
  revert s. induction p as [|a p IH]; intros s; cbn [startsWith]; [reflexivity|].
  destruct s as [|b s]; [discriminate|]. cbn.
  destruct (Ascii.eqb a b); [apply IH|discriminate].
Qed.

Lemma split_go_head_prefix sep s seg rest :
  split_go sep 0 s = seg :: rest -> exists t, s = (seg ++ t)%string.
Proof.
  revert seg rest. induction s as [|a s IH]; intros seg rest; cbn [split_go].
  - intros H. inversion H; subst. exists EmptyString. reflexivity.
  - destruct (startsWith sep (String a s)).
    + intros H. inversion H; subst. exists (String a s). reflexivity.
    + destruct (split_go sep 0 s) as [|seg' rest'] eqn:E.
      * intros H. inversion H; subst. exfalso. exact (split_go_nonempty _ _ _ E).
      * intros H. inversion H; subst.
        destruct (IH _ _ eq_refl) as [t ->]. exists t. reflexivity.
Qed.

(** No segment contains the separator. *)
Lemma split_go_free sep k s :
  sep <> EmptyString ->
  Forall (fun seg => indexOf seg sep = None) (split_go sep k s).
Proof.
  intros Hsep. unfold indexOf. revert k.
  assert (Hnil : indexOf_from 0 sep EmptyString = None)
    by (destruct sep; [congruence|reflexivity]).
  induction s as [|a s IH]; intros k; cbn [split_go].
  - repeat constructor. exact Hnil.
  - destruct k as [|k]; [|apply IH].
    destruct (startsWith sep (String a s)) eqn:E.
    + constructor; [exact Hnil|apply IH].
    + specialize (IH 0).
      destruct (split_go sep 0 s) as [|seg rest] eqn:Hsp.
      * exfalso. exact (split_go_nonempty _ _ _ Hsp).
      * inversion IH as [|? ? Hseg Hrest]; subst. constructor; [|assumption].
        cbn [indexOf_from].
        destruct (startsWith sep (String a seg)) eqn:E'.
        -- destruct (split_go_head_prefix _ _ _ _ Hsp) as [t Ht]. subst s.
           apply (startsWith_app _ _ t) in E'. cbn in E', E. congruence.
        -- exact (indexOf_from_None _ _ _ _ Hseg).
Qed.

Lemma at_Forall (P : string -> Prop) l i :
  P EmptyString -> Forall P l -> P (at_ l i).
Proof.
  intros Hd Hl. unfold at_. destruct (Nat.lt_ge_cases i (List.length l)) as [Hi|Hi].
  - rewrite Forall_forall in Hl. apply Hl. apply list_elem_of_In. now apply nth_In.
  - now rewrite nth_overflow.
Qed.

Lemma splitStep_hasChar c hint st sep :
  hasChar c (fst st) = false -> hasChar c (fst (splitStep hint st sep)) = false.
Proof.
  destruct st as [item parent]. unfold splitStep. cbn [fst].
  destruct (qualifies item sep && isNull hint); [|easy].
  intros H. cbn [fst]. apply at_Forall; [reflexivity|].
  now apply split_go_hasChar.
Qed.

Lemma splitStep_qualifies item parent sep :
  sep <> EmptyString -> qualifies item sep = true ->
  exists front parent' display,
    split item sep = front ++ [parent'; display]
    /\ item = join sep (front ++ [parent'; display])
    /\ indexOf parent' sep = None /\ indexOf display sep = None
    /\ splitStep None (item, parent) sep = (display, parent').
Proof.
  intros Hsep Hq. unfold splitStep. rewrite Hq. cbn [isNull andb].
  assert (Hlen : 2 <= List.length (split item sep)).
  { unfold qualifies in Hq. destruct (indexOf item sep) as [i|] eqn:Hi; [|discriminate].
    exact (split_at_least_two _ _ _ Hsep Hi). }
  destruct (last_two _ Hlen) as (front & a & b & Hsp & Hb & Ha).
  exists front, a, b. rewrite Hb, Ha.
  pose proof (split_go_free sep 0 item Hsep) as Hfree.
  fold (split item sep) in Hfree. rewrite Hsp in Hfree.
  apply Forall_app in Hfree as [_ Hfree].
  inversion Hfree as [|? ? Hfa Hfree']; subst. inversion Hfree'; subst.
  repeat split; try assumption.
  rewrite <- Hsp. symmetry. now apply split_join.
Qed.

(** C4 (as the claim has it, refuted): the separators are not tried until
    the first one that qualifies only.  ["boost.asio::io_service"] is cut at
    its ["."] and what is left is cut again at ["::"], where the first
    qualifying separator alone would give the name ["asio::io_service"] and
    the parent ["boost"]. *)
Lemma normalizeName_not_first_separator_only :
  normalizeName "boost.asio::io_service" "" None = ("io_service", "asio")
  /\ firstSeparatorOnly "boost.asio::io_service" = ("asio::io_service", "boost")
  /\ normalizeName "boost.asio::io_service" "" None
     <> firstSeparatorOnly "boost.asio::io_service".
Proof. repeat split. vm_compute. discriminate. Qed.

(** C4 (amended): without a parent hint the separators [.], [::], [/] have
    their turn in that order, each on the name the earlier ones left.  A
    separator that occurs in that name, and not at position 0, cuts it into
    segments free of the separator; the last segment becomes the name and the
    one before it the parent.  A separator that does not qualify changes
    nothing, so when none qualifies (as for a leading [::method]) the parent
    stays as it was and the name is the stripped name;
    [std::vector::push_back] gives [push_back] with parent [vector]. *)
Theorem normalizeName_separators rawName parent0 :
  let s := stripParams rawName in
  normalizeName rawName parent0 None
    = splitStep None (splitStep None (splitStep None (s, parent0) ".") "::") "/"
  /\ (forall item parent sep,
        In sep separators -> qualifies item sep = true ->
        exists front parent' display,
          split item sep = front ++ [parent'; display]
          /\ item = join sep (front ++ [parent'; display])
          /\ indexOf parent' sep = None /\ indexOf display sep = None
          /\ splitStep None (item, parent) sep = (display, parent'))
  /\ (forall item parent sep,
        qualifies item sep = false ->
        splitStep None (item, parent) sep = (item, parent))
  /\ (qualifies s "." = false -> qualifies s "::" = false ->
      qualifies s "/" = false ->
      normalizeName rawName parent0 None = (s, parent0))
  /\ normalizeName "std::vector::push_back" "" None = ("push_back", "vector")
  /\ normalizeName "::method" "" None = ("::method", "").
Proof.
  cbv zeta. split; [reflexivity|]. split.
  { intros item parent sep Hin Hq. apply splitStep_qualifies; [|exact Hq].
    cbn in Hin. intuition (subst; discriminate). }
  split.
  { intros item parent sep Hq. unfold splitStep. now rewrite Hq. }
  split.
  { intros H1 H2 H3. unfold normalizeName, separators. cbn [fold_left].
    unfold splitStep at 3. rewrite H1. cbn [andb].
    unfold splitStep at 2. rewrite H2. cbn [andb].
    unfold splitStep. rewrite H3. reflexivity. }
  split; reflexivity.
Qed.

Lemma normalizeName_separators_witness :
  normalizeName "::method" "" None = (stripParams "::method", "")
  /\ exists front parent' display,
       split "std::vector::push_back" "::" = front ++ [parent'; display]
       /\ "std::vector::push_back" = join "::" (front ++ [parent'; display])
       /\ indexOf parent' "::" = None /\ indexOf display "::" = None
       /\ splitStep None ("std::vector::push_back", "") "::" = (display, parent').
Proof.
  split.
  - apply (normalizeName_separators "::method" ""); reflexivity.
  - apply (normalizeName_separators "::method" "");
      [cbn; auto | reflexivity].
Defined.

(** C5 (as the claim has it, refuted): a name that opens with its
    parenthesised group has no identifier before the group, the expression of
    line 180 does not match it, and the group stays in the displayed name.
    And where the expression does match, it takes away all that follows the
    first ["("]: of [f(a)(b)] both groups go, not the trailing one alone. *)
Lemma normalizeName_keeps_leading_group :
  ~ (forall rawName front inner,
       rawName = (front ++ "(" ++ inner ++ ")")%string ->
       endsWith ("(" ++ inner ++ ")") (fst (normalizeName rawName "" None)) = false)
  /\ fst (normalizeName "(foo)" "" None) = "(foo)"
  /\ fst (normalizeName ("f(a)" ++ "(" ++ "b" ++ ")") "" None) = "f".
Proof.
  split; [|split; reflexivity].
  intros H. specialize (H "(foo)" "" "foo" eq_refl). vm_compute in H. discriminate.
Qed.

(** C5 (amended): a name made of a non-empty part without ["("] followed by
    ["("], anything, and a closing [")"] at the very end is normalised as that
    first part alone: everything from the first ["("] on is removed, whether
    it is one group or several, and no ["("] is left in the displayed name.
    A name that opens with ["("], or that does not end in [")"], is not
    stripped.  [Read(Stream, int)] without a parent hint gives the name
    [Read] and no parent. *)
Theorem normalizeName_strips_parameters g inner parent0 hint :
  g <> EmptyString -> hasChar "(" g = false ->
  stripParams (g ++ "(" ++ inner ++ ")") = g
  /\ normalizeName (g ++ "(" ++ inner ++ ")") parent0 hint
     = normalizeName g parent0 hint
  /\ hasChar "(" (fst (normalizeName (g ++ "(" ++ inner ++ ")") parent0 hint)) = false
  /\ (forall rest, stripParams (String "(" rest) = String "(" rest)
  /\ (forall s, endsWithChar ")" s = false -> stripParams s = s)
  /\ normalizeName "Read(Stream, int)" "" None = ("Read", "")
  /\ normalizeName "f(a)(b)" "" None = ("f", "").
Proof.
  intros Hne Hp.
  assert (Hs : stripParams (g ++ "(" ++ inner ++ ")") = g)
    by now apply stripParams_params.
  split; [exact Hs|]. split.
  { unfold normalizeName. now rewrite Hs, (stripParams_plain _ Hp). }
  split.
  { unfold normalizeName, separators. rewrite Hs. cbn [fold_left].
    now do 3 apply splitStep_hasChar. }
  split; [intros; reflexivity|].
  split; [exact stripParams_open_end|].
  split; reflexivity.
Qed.

Lemma normalizeName_strips_parameters_witness :
  stripParams ("Read" ++ "(" ++ "Stream, int" ++ ")") = "Read"
  /\ normalizeName ("Read" ++ "(" ++ "Stream, int" ++ ")") "" None
     = normalizeName "Read" "" None.
Proof.
  assert (H1 : "Read" <> EmptyString) by discriminate.
  assert (H2 : hasChar "(" "Read" = false) by reflexivity.
  split; apply (normalizeName_strips_parameters "Read" "Stream, int" "" None H1 H2).
Defined.

End NormalizeFacts.

(** ** The two-phase search of one docset *)
Module SearchFacts.
Import QStr Normalize Sql Registry Spec.
Local Open Scope list_scope.









(** The example of the specification: [util.ListUtils] passes the first
    statement already, by the pattern for names qualified with a dot. *)
Example search_list :
  searchDocset Samples.env ∅ Samples.java "list"
  = ([[Some "List"; None; Some "list.html"];
      [Some "ListIterator"; None; Some "listiterator.html"];
      [Some "util.ListUtils"; None; Some "listutils.html"];
      [Some "ArrayList"; None; Some "arraylist.html"]],
     [DbExec (Some 1) (SearchIndex Dash "list" None);
      DbExec (Some 1) (SearchIndex Dash "%list" (Some "list"))]).
Proof. vm_compute. reflexivity. Qed.

(** With a hundred names that start with the word, the substring statement
    is not sent and [ArrayList] is not found. *)
Example search_crowded :
  List.length (fst (searchDocset Samples.env ∅ Samples.crowded "list")) = 100
  /\ snd (searchDocset Samples.env ∅ Samples.crowded "list")
     = [DbExec (Some 4) (SearchIndex Dash "list" None)].
Proof. split; vm_compute; reflexivity. Qed.




End SearchFacts.

(** ** The set of docsets, and the symbols of a page *)
Module RegistryFacts.
Import QStr Normalize Sql Registry Spec.
Local Open Scope list_scope.

Lemma contains_true name s d :
  m_docs s !! name = Some d -> contains name s = true.
Proof. intros H. unfold contains. apply bool_decide_eq_true. eauto. Qed.

Lemma remove_present env name s d :
  m_docs s !! name = Some d ->
  remove env name s
  = ({| m_docs := delete name (m_docs s);
        m_lastQuery := m_lastQuery s;
        m_queryResults := m_queryResults s;
        closedDbs := close (db d) (closedDbs s) |},
     [DbClose (db d)]).
Proof. intros H. unfold remove, subscript. now rewrite H. Qed.

Lemma exec_closed env conn closed q :
  exec env (close conn closed) conn q = [].
Proof.
  destruct conn as [c|]; cbn; [|reflexivity].
  destruct (decide (c ∈ {[c]} ∪ closed)) as [|Hn]; [reflexivity|].
  exfalso. apply Hn. set_solver.
Qed.

(** C7: adding a valid docset under a name the registry already has first
    closes the connection of the entry that is there and takes the entry out,
    then enters the new docset under the name.  The number of docsets is as
    before, the name now stands for the new docset, the other entries are
    untouched, and the old connection no longer answers any statement. *)
Theorem addDocset_replaces env docset old s :
  isValid docset = true ->
  m_docs s !! name docset = Some old ->
  exists mid s',
    remove env (name docset) s = (mid, [DbClose (db old)])
    /\ m_docs mid !! name docset = None
    /\ closedDbs mid = close (db old) (closedDbs s)
    /\ addDocset env docset s = Returned (s', [DbClose (db old)])
    /\ m_docs s' = <[name docset := docset]> (m_docs mid)
    /\ closedDbs s' = closedDbs mid
    /\ count s' = count s
    /\ m_docs s' !! name docset = Some docset
    /\ (forall other, other <> name docset -> m_docs s' !! other = m_docs s !! other)
    /\ (forall q, exec env (closedDbs s') (db old) q = []).
Proof.
  intros Hv Hold. eexists _, _.
  split; [apply (remove_present env _ _ _ Hold)|].
  split; [apply lookup_delete_eq|]. split; [reflexivity|].
  split.
  { unfold addDocset. rewrite Hv, (contains_true _ _ _ Hold).
    cbn [negb]. rewrite (remove_present env _ _ _ Hold). reflexivity. }
  cbn [m_docs closedDbs]. split; [reflexivity|]. split; [reflexivity|].
  split.
  { unfold count. cbn [m_docs]. rewrite insert_delete_eq.
    apply map_size_insert_Some. eauto. }
  split; [apply lookup_insert_eq|]. split.
  { intros other Hne. rewrite lookup_insert_ne by congruence.
    now rewrite lookup_delete_ne by congruence. }
  intros q. apply exec_closed.
Qed.

Lemma addDocset_replaces_witness :
  exists s',
    addDocset Samples.env Samples.javaAgain Samples.withJava
    = Returned (s', [DbClose (Some 1)])
    /\ count s' = 1
    /\ m_docs s' !! "Java" = Some Samples.javaAgain
    /\ exec Samples.env (closedDbs s') (Some 1) (SearchIndex Dash "list" None) = [].
Proof.
  assert (Hv : isValid Samples.javaAgain = true) by reflexivity.
  assert (Hold : m_docs Samples.withJava !! name Samples.javaAgain = Some Samples.java)
    by (vm_compute; reflexivity).
  destruct (addDocset_replaces Samples.env Samples.javaAgain Samples.java
              Samples.withJava Hv Hold)
    as (mid & s' & _ & _ & _ & Hadd & _ & _ & Hcount & Hnew & _ & Hexec).
  exists s'. repeat split; [exact Hadd|exact Hcount|exact Hnew|apply Hexec].
Defined.

(** C8 (what the code does where the claim asks for a failure of kind
    InvalidDocset): for a docset that is not valid, [addDocset] returns to
    its caller with the registry as it was and with no effect at all, no
    signal among them; nothing tells the caller that the docset was
    rejected. *)
Theorem addDocset_invalid_is_silent env docset s :
  isValid docset = false ->
  addDocset env docset s = Returned (s, [])
  /\ addDocset env docset s <> Raised InvalidDocset.
Proof. intros Hv. unfold addDocset. rewrite Hv. split; [reflexivity|discriminate]. Qed.

Lemma addDocset_invalid_is_silent_witness :
  addDocset Samples.env Samples.broken Samples.withJava
  = Returned (Samples.withJava, []).
Proof.
  apply (addDocset_invalid_is_silent Samples.env Samples.broken Samples.withJava).
  reflexivity.
Defined.

Lemma exec_no_connection env closed q : exec env closed None q = [].
Proof. reflexivity. Qed.

(** For a name the registry does not have, [m_docs[name]] enters a
    default-constructed docset under that name. *)
Lemma relatedLinks_enters_unknown_name env name path s :
  m_docs s !! name = None ->
  m_docs (snd (fst (relatedLinks env name path s)))
  = <[name := defaultDocset env]> (m_docs s).
Proof. intros H. unfold relatedLinks, entry, subscript. now rewrite H. Qed.

(** C9 (as the claim has it, refuted): asked for the symbols of a page of a
    docset the registry does not have, [relatedLinks] returns, and what it
    returns is a list. *)
Lemma relatedLinks_unknown_name_returns :
  fst (fst (relatedLinks Samples.env "Python" "index.html#top" Samples.withJava))
  = Returned []
  /\ fst (fst (relatedLinks Samples.env "Python" "index.html#top" Samples.withJava))
     <> Raised NotFound.
Proof. split; [vm_compute; reflexivity|vm_compute; discriminate]. Qed.

(** C9 (amended): for a docset name that is not in the registry,
    [relatedLinks] returns the empty list of results; it does not fail. *)
Theorem relatedLinks_unknown_name env name path s :
  m_docs s !! name = None ->
  fst (fst (relatedLinks env name path s)) = Returned [].
Proof. intros H. unfold relatedLinks, entry, subscript. now rewrite H. Qed.

Lemma relatedLinks_unknown_name_witness :
  fst (fst (relatedLinks Samples.env "Python" "index.html#top" Samples.withJava))
  = Returned [].
Proof.
  apply (relatedLinks_unknown_name Samples.env "Python" "index.html#top"
           Samples.withJava).
  vm_compute. reflexivity.
Defined.

Lemma relatedOfRow_blank entry name row :
  parentName (relatedOfRow entry name row) = EmptyString
  /\ query (relatedOfRow entry name row) = EmptyString.
Proof.
  unfold relatedOfRow. destruct (normalizeName _ _ _). split; reflexivity.
Qed.

(** C10: [relatedLinks] always returns a list, and every result in it has
    an empty parent name and an empty query, whatever the name of the symbol:
    [std::vector::push_back] is listed as [push_back] without its parent
    [vector]. *)
Theorem relatedLinks_results_blank env name path s :
  (exists results,
     fst (fst (relatedLinks env name path s)) = Returned results
     /\ Forall (fun r => parentName r = EmptyString /\ query r = EmptyString) results)
  /\ fst (fst (relatedLinks Samples.env "C++" "vector.html" Samples.withCpp))
     = Returned [mkSearchResult "push_back" "" "vector.html" "C++" ""].
Proof.
  split; [|vm_compute; reflexivity].
  unfold relatedLinks. destruct (entry env name s) as [e s1].
  eexists. split; [reflexivity|].
  apply List.Forall_map, List.Forall_forall. intros row _. apply relatedOfRow_blank.
Qed.

End RegistryFacts.

(** ** Query numbers: which results get published *)
Module QueueFacts.
Import QStr Normalize Sql Registry Spec.
Local Open Scope list_scope.
Local Open Scope Z_scope.

Lemma increment_spec n m : increment n = Some m -> m = n + 1 /\ n < INT_MAX.
Proof.
  unfold increment. destruct (n <? INT_MAX) eqn:E; [|discriminate].
  intros H. inversion H. split; [reflexivity|]. now apply Z.ltb_lt.
Qed.

Lemma remove_keeps env name s :
  m_lastQuery (fst (remove env name s)) = m_lastQuery s
  /\ m_queryResults (fst (remove env name s)) = m_queryResults s.
Proof. unfold remove. destruct (subscript env name (m_docs s)). split; reflexivity. Qed.

Lemma addDocset_keeps env docset s s' fx :
  addDocset env docset s = Returned (s', fx) ->
  m_lastQuery s' = m_lastQuery s /\ m_queryResults s' = m_queryResults s.
Proof.
  unfold addDocset. destruct (negb (isValid docset)).
  - intros H. inversion H; subst. split; reflexivity.
  - destruct (contains (name docset) s).
    + pose proof (remove_keeps env (name docset) s) as [H1 H2].
      destruct (remove env (name docset) s) as [s1 fx1]. cbn [fst] in H1, H2.
      intros H. inversion H; subst. cbn. split; congruence.
    + intros H. inversion H; subst. split; reflexivity.
Qed.

Lemma publish_keeps results queryNum s :
  m_lastQuery (fst (_runQuery_publish results queryNum s)) = m_lastQuery s
  /\ m_docs (fst (_runQuery_publish results queryNum s)) = m_docs s
  /\ closedDbs (fst (_runQuery_publish results queryNum s)) = closedDbs s.
Proof. unfold _runQuery_publish. destruct (decide _); repeat split; reflexivity. Qed.


(** No event breaks [consistent], and a system with nothing posted and
    nothing running is consistent. *)
Lemma consistent_idle s : consistent (mkSystem s [] None).
Proof. split; [constructor|exact I]. Qed.

Lemma consistent_step env e sys sys' :
  consistent sys -> step env e sys = Some sys' -> consistent sys'.
Proof.
  intros [Hp Hr] Hstep.
  destruct e as [rawQuery| |docset|docsetName| |]; cbn in Hstep.
  - unfold runQuery in Hstep.
    destruct (increment (m_lastQuery (registry sys))) as [n|] eqn:Hn; [|discriminate].
    apply increment_spec in Hn as [-> _]. inversion Hstep; subst. split; cbn.
    + apply Forall_app. split; [|repeat constructor; cbn; lia].
      eapply Forall_impl; [exact Hp|]. cbn. intros; lia.
    + destruct (running sys) as [[? ?]|]; [lia|exact I].
  - unfold invalidateQueries in Hstep.
    destruct (increment (m_lastQuery (registry sys))) as [n|] eqn:Hn; [|discriminate].
    apply increment_spec in Hn as [-> _]. inversion Hstep; subst. split; cbn.
    + eapply Forall_impl; [exact Hp|]. cbn. intros; lia.
    + destruct (running sys) as [[? ?]|]; [lia|exact I].
  - destruct (addDocset env docset (registry sys)) as [[r fx]|] eqn:Ha; [|discriminate].
    apply addDocset_keeps in Ha as [Ha _]. inversion Hstep; subst.
    split; cbn; rewrite Ha; assumption.
  - pose proof (remove_keeps env docsetName (registry sys)) as [Ha _].
    inversion Hstep; subst. split; cbn; rewrite Ha; assumption.
  - destruct (running sys) as [[? ?]|] eqn:Hrun; [discriminate|].
    destruct (posted sys) as [|[raw queryNum] rest] eqn:Hpo; [discriminate|].
    inversion Hstep; subst. inversion Hp; subst. split; cbn; [assumption|].
    destruct (_runQuery_search env raw queryNum (registry sys)) as [[? ?]|];
      [assumption|exact I].
  - destruct (running sys) as [[results queryNum]|] eqn:Hrun; [|discriminate].
    pose proof (publish_keeps results queryNum (registry sys)) as (Ha & _).
    inversion Hstep; subst. split; cbn; [|exact I]. now rewrite Ha.
Qed.

Lemma search_stale env rawQuery queryNum s :
  queryNum <> m_lastQuery s -> _runQuery_search env rawQuery queryNum s = None.
Proof. intros H. unfold _runQuery_search. now destruct (decide _). Qed.

Lemma search_latest env rawQuery s :
  _runQuery_search env rawQuery (m_lastQuery s) s
  = Some (qSort env (fst (accumulate env s rawQuery)), snd (accumulate env s rawQuery)).
Proof.
  unfold _runQuery_search. destruct (decide _) as [H|_]; [congruence|].
  now destruct (accumulate env s rawQuery).
Qed.



Lemma runQuery_stale env rawQuery queryNum s :
  queryNum <> m_lastQuery s -> _runQuery env rawQuery queryNum s = (s, []).
Proof. intros H. unfold _runQuery. now rewrite search_stale. Qed.











End QueueFacts.

(** ** The order of the published results *)
Module SortFacts.
Import QStr Normalize Sql Registry Spec.
Local Open Scope list_scope.

Lemma ranking_eq_r {A} (cmp : A -> A -> comparison) `{!Ranking cmp} x y z :
  cmp y z = Eq -> cmp x y = cmp x z.
Proof.
  intros H. rewrite (ranking_opp x y), (ranking_opp x z). f_equal.
  symmetry. apply ranking_eq. rewrite ranking_opp, H. reflexivity.
Qed.


#[local] Instance nat_ranking : Ranking Nat.compare.
Proof.
  split.
  - intros x y. apply Nat.compare_antisym.
  - intros x y z H. apply Nat.compare_eq in H. now subst.
  - intros x y z. rewrite !Nat.compare_lt_iff. lia.
Qed.

Lemma ascii_compare_refl a : Ascii.compare a a = Eq.
Proof. apply N.compare_refl. Qed.

Lemma ascii_compare_lt_trans a b c :
  Ascii.compare a b = Lt -> Ascii.compare b c = Lt -> Ascii.compare a c = Lt.
Proof. unfold Ascii.compare. rewrite !N.compare_lt_iff. lia. Qed.

Lemma string_compare_lt_trans x y z :
  String.compare x y = Lt -> String.compare y z = Lt -> String.compare x z = Lt.
Proof.
  revert y z. induction x as [|a x IH]; intros [|b y] [|c z]; cbn; try easy.
  destruct (Ascii.compare a b) eqn:Eab; try discriminate;
    destruct (Ascii.compare b c) eqn:Ebc; try discriminate.
  - apply Ascii.compare_eq_iff in Eab, Ebc. subst.
    rewrite ascii_compare_refl. apply IH.
  - apply Ascii.compare_eq_iff in Eab. subst. now rewrite Ebc.
  - apply Ascii.compare_eq_iff in Ebc. subst. now rewrite Eab.
  - now rewrite (ascii_compare_lt_trans _ _ _ Eab Ebc).
Qed.

#[local] Instance string_ranking : Ranking String.compare.
Proof.
  split.
  - apply String.compare_antisym.
  - intros x y z H. apply String.compare_eq_iff in H. now subst.
  - apply string_compare_lt_trans.
Qed.

(** Ranking by a key, and by one comparison after another. *)
#[local] Instance key_ranking {A B} (key : A -> B) (cmp : B -> B -> comparison)
  `{!Ranking cmp} : Ranking (fun x y => cmp (key x) (key y)).
Proof.
  split; intros.
  - apply ranking_opp.
  - now apply ranking_eq.
  - now apply (ranking_lt _ (key y)).
Qed.

#[local] Instance lex_ranking {A} (c1 c2 : A -> A -> comparison)
  `{!Ranking c1} `{!Ranking c2} : Ranking (fun x y => lex (c1 x y) (c2 x y)).
Proof.
  split.
  - intros x y. rewrite (ranking_opp (cmp := c1) x y), (ranking_opp (cmp := c2) x y).
    now destruct (c1 y x).
  - intros x y z H.
    destruct (c1 x y) eqn:E1; cbn in H; try discriminate.
    now rewrite (ranking_eq (cmp := c1) x y z E1), (ranking_eq (cmp := c2) x y z H).
  - intros x y z Hxy Hyz.
    destruct (c1 x y) eqn:E1; cbn in Hxy; try discriminate;
      destruct (c1 y z) eqn:E2; cbn in Hyz; try discriminate.
    + rewrite (ranking_eq (cmp := c1) x y z E1), E2. cbn.
      now apply (ranking_lt (cmp := c2) x y z).
    + now rewrite (ranking_eq (cmp := c1) x y z E1), E2.
    + now rewrite <- (ranking_eq_r c1 x y z E2), E1.
    + now rewrite (ranking_lt (cmp := c1) x y z E1 E2).
Qed.

#[local] Instance compareResults_ranking : Ranking compareResults.
Proof.
  unfold compareResults.
  apply (lex_ranking (fun a b => Nat.compare (String.length (resultName a))
                                            (String.length (resultName b)))).
  - apply (key_ranking (fun a => String.length (resultName a)) Nat.compare).
  - apply (lex_ranking (fun a b => String.compare (lower (resultName a))
                                                  (lower (resultName b)))).
    + apply (key_ranking (fun a => lower (resultName a)) String.compare).
    + exact (lex_ranking (fun a b => String.compare (docsetName a) (docsetName b))
                         (fun a b => String.compare (path a) (path b))
                         (Ranking0 := key_ranking docsetName String.compare)
                         (Ranking1 := key_ranking path String.compare)).
Qed.















End SortFacts.

(** ** The set of docsets: removing, adding, clearing, looking up *)
Module RegistryMore.
Import QStr Normalize Sql Registry Spec Shape.
Local Open Scope list_scope.

Lemma state_eta s :
  {| m_docs := m_docs s; m_lastQuery := m_lastQuery s;
     m_queryResults := m_queryResults s; closedDbs := closedDbs s |} = s.
Proof. now destruct s. Qed.

Lemma remove_docs env key s :
  m_docs (fst (remove env key s)) = delete key (m_docs s).
Proof.
  unfold remove, subscript. destruct (m_docs s !! key); cbn; [reflexivity|].
  apply delete_insert_eq.
Qed.

Lemma remove_closed env key s :
  closedDbs (fst (remove env key s))
  = match m_docs s !! key with
    | Some d => close (db d) (closedDbs s)
    | None => closedDbs s
    end.
Proof. unfold remove, subscript. now destruct (m_docs s !! key). Qed.

Lemma remove_effect env key s :
  snd (remove env key s)
  = [DbClose (match m_docs s !! key with Some d => db d | None => None end)].
Proof. unfold remove, subscript. now destruct (m_docs s !! key). Qed.

(** X1: removing a name the registry does not have changes nothing: the
    default entry the subscript enters is taken out again at once, and the
    only thing closed is the connection of that entry, which is none. *)
Theorem remove_unknown env key s :
  m_docs s !! key = None ->
  remove env key s = (s, [DbClose None]).
Proof.
  intros H. unfold remove, subscript. rewrite H. cbn.
  rewrite delete_insert_eq, (delete_id _ _ H), state_eta. reflexivity.
Qed.

Lemma remove_unknown_witness :
  remove Samples.env "Python" Samples.withJava = (Samples.withJava, [DbClose None]).
Proof.
  apply (remove_unknown Samples.env "Python" Samples.withJava).
  vm_compute. reflexivity.
Defined.

(** X2: removing a docset the registry has closes its connection, takes
    the name out and leaves all else as it was: one docset fewer, the other
    names untouched, query number and published results kept. *)
Theorem remove_known env key d s :
  m_docs s !! key = Some d ->
  snd (remove env key s) = [DbClose (db d)]
  /\ contains key (fst (remove env key s)) = false
  /\ S (count (fst (remove env key s))) = count s
  /\ (forall other, other <> key ->
        m_docs (fst (remove env key s)) !! other = m_docs s !! other)
  /\ closedDbs (fst (remove env key s)) = close (db d) (closedDbs s)
  /\ (forall q, exec env (closedDbs (fst (remove env key s))) (db d) q = [])
  /\ m_lastQuery (fst (remove env key s)) = m_lastQuery s
  /\ m_queryResults (fst (remove env key s)) = m_queryResults s.
Proof.
  intros H.
  split; [now rewrite remove_effect, H|].
  split.
  { unfold contains. apply bool_decide_eq_false. rewrite remove_docs, lookup_delete_eq.
    now intros [? ?]. }
  split.
  { unfold count. rewrite remove_docs, (map_size_delete_Some key) by eauto.
    assert (size (m_docs s) <> 0).
    { intros H0. apply map_size_empty_inv in H0. rewrite H0 in H.
      now rewrite lookup_empty in H. }
    lia. }
  split; [intros other Hne; rewrite remove_docs; now apply lookup_delete_ne|].
  split; [now rewrite remove_closed, H|].
  split.
  { intros q. rewrite remove_closed, H. apply RegistryFacts.exec_closed. }
  apply QueueFacts.remove_keeps.
Qed.

Lemma remove_known_witness :
  snd (remove Samples.env "Java" Samples.withJava) = [DbClose (Some 1)]
  /\ contains "Java" (fst (remove Samples.env "Java" Samples.withJava)) = false
  /\ S (count (fst (remove Samples.env "Java" Samples.withJava)))
     = count Samples.withJava.
Proof.
  assert (H : m_docs Samples.withJava !! "Java" = Some Samples.java)
    by (vm_compute; reflexivity).
  destruct (remove_known Samples.env "Java" Samples.java Samples.withJava H)
    as (H1 & H2 & H3 & _).
  exact (conj H1 (conj H2 H3)).
Defined.

Lemma addDocset_valid env docset s :
  isValid docset = true ->
  addDocset env docset s
  = Returned ({| m_docs := <[name docset := docset]> (m_docs s);
                 m_lastQuery := m_lastQuery s;
                 m_queryResults := m_queryResults s;
                 closedDbs := match m_docs s !! name docset with
                              | Some old => close (db old) (closedDbs s)
                              | None => closedDbs s
                              end |},
              match m_docs s !! name docset with
              | Some old => [DbClose (db old)]
              | None => []
              end).
Proof.
  intros Hv. unfold addDocset. rewrite Hv. cbn [negb].
  destruct (m_docs s !! name docset) as [old|] eqn:H.
  - rewrite (RegistryFacts.contains_true _ _ _ H),
      (RegistryFacts.remove_present env _ _ _ H).
    cbn. now rewrite insert_delete_eq.
  - assert (Hc : contains (name docset) s = false).
    { unfold contains. apply bool_decide_eq_false. rewrite H. now intros [? ?]. }
    now rewrite Hc.
Qed.

(** X3: adding a valid docset under a name the registry does not have
    closes nothing and has no other effect outside; the registry has one
    docset more, filed under the name of the docset, and the rest of the
    state is as it was. *)
Theorem addDocset_fresh env docset s :
  isValid docset = true ->
  m_docs s !! name docset = None ->
  exists s',
    addDocset env docset s = Returned (s', [])
    /\ m_docs s' = <[name docset := docset]> (m_docs s)
    /\ count s' = S (count s)
    /\ contains (name docset) s' = true
    /\ closedDbs s' = closedDbs s
    /\ m_lastQuery s' = m_lastQuery s
    /\ m_queryResults s' = m_queryResults s.
Proof.
  intros Hv Hn. eexists. rewrite (addDocset_valid env _ _ Hv), Hn.
  split; [reflexivity|]. cbn. split; [reflexivity|].
  split; [now apply map_size_insert_None|].
  split; [|repeat split].
  unfold contains. apply bool_decide_eq_true. cbn. rewrite lookup_insert_eq. eauto.
Qed.

Lemma addDocset_fresh_witness :
  exists s',
    addDocset Samples.env MoreSamples.python Samples.withJava = Returned (s', [])
    /\ count s' = 2.
Proof.
  assert (Hv : isValid MoreSamples.python = true) by reflexivity.
  assert (Hn : m_docs Samples.withJava !! name MoreSamples.python = None)
    by (vm_compute; reflexivity).
  destruct (addDocset_fresh Samples.env MoreSamples.python Samples.withJava Hv Hn)
    as (s' & Ha & _ & Hc & _).
  exists s'. split; [exact Ha|exact Hc].
Defined.

(** X4: a docset that was added under a new name and is removed again
    leaves the docsets of the registry as they were before; what stays is
    that the connection of the docset is closed. *)
Theorem addDocset_then_remove env docset s :
  isValid docset = true ->
  m_docs s !! name docset = None ->
  exists s1,
    addDocset env docset s = Returned (s1, [])
    /\ m_docs (fst (remove env (name docset) s1)) = m_docs s
    /\ closedDbs (fst (remove env (name docset) s1)) = close (db docset) (closedDbs s)
    /\ snd (remove env (name docset) s1) = [DbClose (db docset)].
Proof.
  intros Hv Hn. eexists. rewrite (addDocset_valid env _ _ Hv), Hn.
  split; [reflexivity|].
  rewrite remove_docs, remove_closed, remove_effect. cbn.
  rewrite lookup_insert_eq, delete_insert_eq, (delete_id _ _ Hn). auto.
Qed.

Lemma addDocset_then_remove_witness :
  exists s1,
    addDocset Samples.env MoreSamples.python Samples.withJava = Returned (s1, [])
    /\ m_docs (fst (remove Samples.env "Python" s1)) = m_docs Samples.withJava.
Proof.
  assert (Hv : isValid MoreSamples.python = true) by reflexivity.
  assert (Hn : m_docs Samples.withJava !! name MoreSamples.python = None)
    by (vm_compute; reflexivity).
  destruct (addDocset_then_remove Samples.env MoreSamples.python Samples.withJava Hv Hn)
    as (s1 & Ha & Hd & _).
  exists s1. split; [exact Ha|exact Hd].
Defined.

Lemma entry_known env key s d :
  m_docs s !! key = Some d -> entry env key s = (d, s).
Proof. intros H. unfold entry, subscript. rewrite H. now rewrite state_eta. Qed.

Lemma entry_unknown env key s :
  m_docs s !! key = None ->
  fst (entry env key s) = defaultDocset env
  /\ m_docs (snd (entry env key s)) = <[key := defaultDocset env]> (m_docs s)
  /\ closedDbs (snd (entry env key s)) = closedDbs s.
Proof. intros H. unfold entry, subscript. rewrite H. cbn. auto. Qed.

(** X5: looking a docset up by a name the registry has returns it and
    changes nothing; looking one up by a name it does not have returns a
    default-constructed docset and leaves that docset filed under the name:
    the registry counts one docset more and says it contains the name. *)
Theorem entry_known_unknown env key s :
  (forall d, m_docs s !! key = Some d -> entry env key s = (d, s))
  /\ (m_docs s !! key = None ->
      fst (entry env key s) = defaultDocset env
      /\ m_docs (snd (entry env key s)) = <[key := defaultDocset env]> (m_docs s)
      /\ count (snd (entry env key s)) = S (count s)
      /\ contains key s = false
      /\ contains key (snd (entry env key s)) = true
      /\ closedDbs (snd (entry env key s)) = closedDbs s).
Proof.
  split; [intros d; apply entry_known|].
  intros H. destruct (entry_unknown env key s H) as (Hd & Hm & Hc).
  split; [exact Hd|]. split; [exact Hm|].
  split; [unfold count; rewrite Hm; now apply map_size_insert_None|].
  split.
  { unfold contains. apply bool_decide_eq_false. rewrite H. now intros [? ?]. }
  split; [|exact Hc].
  unfold contains. apply bool_decide_eq_true. rewrite Hm, lookup_insert_eq. eauto.
Qed.

Lemma entry_known_unknown_witness :
  entry Samples.env "Java" Samples.withJava = (Samples.java, Samples.withJava)
  /\ count (snd (entry Samples.env "Python" Samples.withJava)) = 2.
Proof.
  destruct (entry_known_unknown Samples.env "Java" Samples.withJava) as [Hk _].
  destruct (entry_known_unknown Samples.env "Python" Samples.withJava) as [_ Hu].
  split.
  - apply Hk. vm_compute. reflexivity.
  - apply Hu. vm_compute. reflexivity.
Defined.

(** [clear] as the fold it is, for any list of names. *)
Lemma removeAll_state env l acc :
  let out := fold_left (fun acc key =>
                          let '(s', fx) := remove env key (fst acc) in
                          (s', snd acc ++ fx)) l acc in
  m_docs (fst out) = fold_left (fun m key => delete key m) l (m_docs (fst acc))
  /\ m_lastQuery (fst out) = m_lastQuery (fst acc)
  /\ m_queryResults (fst out) = m_queryResults (fst acc)
  /\ closedDbs (fst acc) ⊆ closedDbs (fst out).
Proof.
  cbv zeta. revert acc. induction l as [|key l IH]; intros acc; cbn [fold_left].
  - repeat split. set_solver.
  - destruct (remove env key (fst acc)) as [s1 fx1] eqn:Hr.
    destruct (IH (s1, snd acc ++ fx1)) as (H1 & H2 & H3 & H4). cbn [fst] in *.
    assert (Hs1 : s1 = fst (remove env key (fst acc))) by now rewrite Hr.
    pose proof (QueueFacts.remove_keeps env key (fst acc)) as [Hk1 Hk2].
    repeat split.
    + now rewrite H1, Hs1, remove_docs.
    + now rewrite H2, Hs1.
    + now rewrite H3, Hs1.
    + etransitivity; [|exact H4]. rewrite Hs1, remove_closed.
      destruct (m_docs (fst acc) !! key) as [d|]; [|reflexivity].
      destruct (db d) as [c|]; cbn; [apply union_subseteq_r|reflexivity].
Qed.

Lemma lookup_deleteAll (m : gmap string Docset) l i :
  fold_left (fun m key => delete key m) l m !! i
  = if decide (i ∈ l) then None else m !! i.
Proof.
  revert m. induction l as [|key l IH]; intros m; cbn [fold_left].
  - destruct (decide _) as [H|_]; [now apply elem_of_nil in H|reflexivity].
  - rewrite IH. destruct (decide (i ∈ l)) as [Hl|Hl].
    + rewrite decide_True by (now right). reflexivity.
    + destruct (decide (i = key)) as [->|Hne].
      * rewrite decide_True by (now left). apply lookup_delete_eq.
      * rewrite decide_False by (intros [?|?]%elem_of_cons; contradiction).
        now apply lookup_delete_ne.
Qed.

Lemma removeAll_effects env (kvs : list (string * Docset)) acc :
  NoDup kvs.*1 ->
  (forall key d, (key, d) ∈ kvs -> m_docs (fst acc) !! key = Some d) ->
  let out := fold_left (fun acc key =>
                          let '(s', fx) := remove env key (fst acc) in
                          (s', snd acc ++ fx)) kvs.*1 acc in
  snd out = snd acc ++ map (fun kv => DbClose (db (snd kv))) kvs
  /\ (forall key d c, (key, d) ∈ kvs -> db d = Some c -> c ∈ closedDbs (fst out)).
Proof.
  cbv zeta. revert acc. induction kvs as [|[key d] kvs IH]; intros acc Hnd Hin.
  - cbn. split; [now rewrite app_nil_r|]. intros ? ? ? H. now apply elem_of_nil in H.
  - cbn [fmap list_fmap fst fold_left map snd] in *.
    apply NoDup_cons in Hnd as [Hnot Hnd].
    assert (Hd : m_docs (fst acc) !! key = Some d) by (apply Hin; now left).
    rewrite (RegistryFacts.remove_present env _ _ _ Hd).
    match goal with
    | |- context [fold_left ?f _ ?a] => set (acc1 := a)
    end.
    destruct (IH acc1 Hnd) as [He Hc].
    { intros key' d' Hkv. unfold acc1. cbn.
      rewrite lookup_delete_ne; [apply Hin; now right|].
      intros ->. apply Hnot. apply list_elem_of_fmap. now exists (key', d'). }
    split.
    + rewrite He. unfold acc1. cbn. now rewrite <- app_assoc.
    + intros key' d' c Hkv Hdb. apply elem_of_cons in Hkv as [Heq|Hkv].
      * inversion Heq; subst.
        pose proof (removeAll_state env kvs.*1 acc1) as (_ & _ & _ & Hsub).
        cbv zeta in Hsub. apply Hsub. unfold acc1. cbn. rewrite Hdb. cbn.
        apply elem_of_union. left. now apply elem_of_singleton.
      * exact (Hc _ _ _ Hkv Hdb).
Qed.

Lemma clear_state env s :
  m_docs (fst (clear env s)) = ∅
  /\ count (fst (clear env s)) = 0
  /\ snd (clear env s) = map (fun d => DbClose (db d)) (docsets s)
  /\ (forall key d c,
        m_docs s !! key = Some d -> db d = Some c ->
        c ∈ closedDbs (fst (clear env s)))
  /\ closedDbs s ⊆ closedDbs (fst (clear env s))
  /\ m_lastQuery (fst (clear env s)) = m_lastQuery s
  /\ m_queryResults (fst (clear env s)) = m_queryResults s.
Proof.
  unfold clear, names.
  pose proof (removeAll_state env (map_to_list (m_docs s)).*1 (s, [])) as (H1 & H2 & H3 & H4).
  pose proof (removeAll_effects env (map_to_list (m_docs s)) (s, [])
                (NoDup_fst_map_to_list _)) as [H5 H6].
  { intros key d. cbn. apply elem_of_map_to_list. }
  cbv zeta in *. cbn [fst snd] in *.
  assert (Hempty : m_docs (fst (fold_left
            (fun acc key => let '(s', fx) := remove env key (fst acc) in (s', snd acc ++ fx))
            (map_to_list (m_docs s)).*1 (s, []))) = ∅).
  { rewrite H1. apply map_empty. intros i. rewrite lookup_deleteAll.
    destruct (decide _) as [|Hn]; [reflexivity|].
    destruct (m_docs s !! i) as [d|] eqn:Hi; [|reflexivity].
    exfalso. apply Hn. apply list_elem_of_fmap. exists (i, d).
    split; [reflexivity|]. now apply elem_of_map_to_list. }
  split; [exact Hempty|].
  split; [unfold count; rewrite Hempty; apply map_size_empty|].
  split.
  { rewrite H5. cbn. unfold docsets. now rewrite map_map. }
  split.
  { intros key d c Hd Hdb. apply (H6 key d c); [|exact Hdb].
    now apply elem_of_map_to_list. }
  auto.
Qed.

(** X6: [clear] leaves no docset in the registry and closes, one by one in
    the order of [docsets], the connection of every docset that was there;
    no connection closed before is open after.  The query number and the
    published results stay: results of docsets that are gone remain
    published. *)
Theorem clear_all env s :
  m_docs (fst (clear env s)) = ∅
  /\ count (fst (clear env s)) = 0
  /\ (forall key, contains key (fst (clear env s)) = false)
  /\ snd (clear env s) = map (fun d => DbClose (db d)) (docsets s)
  /\ (forall key d c,
        m_docs s !! key = Some d -> db d = Some c ->
        c ∈ closedDbs (fst (clear env s)))
  /\ closedDbs s ⊆ closedDbs (fst (clear env s))
  /\ m_lastQuery (fst (clear env s)) = m_lastQuery s
  /\ m_queryResults (fst (clear env s)) = m_queryResults s.
Proof.
  destruct (clear_state env s) as (H1 & H2 & H3 & H4 & H5 & H6 & H7).
  split; [exact H1|]. split; [exact H2|]. split.
  { intros key. unfold contains. apply bool_decide_eq_false.
    rewrite H1, lookup_empty. now intros [? ?]. }
  auto 8.
Qed.

Lemma keys_are_names (l : list (string * Docset)) :
  Forall (fun kv => name (snd kv) = fst kv) l -> l.*1 = map name l.*2.
Proof.
  induction 1 as [|[key d] l Hkv _ IH]; cbn in *; [reflexivity|].
  now rewrite Hkv, IH.
Qed.

(** X7: as long as docsets come and go by [addDocset], [remove] and
    [clear], every docset stays filed under its own name, and [names] lists
    the names of [docsets] in the same order.  Looking up a name that is
    not there breaks this: the default docset filed under it has an empty
    name. *)
Theorem keyedByName_kept env s :
  keyedByName s ->
  (forall docset s' fx, addDocset env docset s = Returned (s', fx) -> keyedByName s')
  /\ (forall key, keyedByName (fst (remove env key s)))
  /\ keyedByName (fst (clear env s))
  /\ names s = map name (docsets s)
  /\ (forall key, key <> EmptyString -> m_docs s !! key = None ->
        ~ keyedByName (snd (entry env key s))).
Proof.
  intros Hk. split.
  { intros docset s' fx Ha. destruct (isValid docset) eqn:Hv.
    - rewrite (addDocset_valid env _ _ Hv) in Ha. inversion Ha; subst. clear Ha.
      intros key d. cbn. rewrite lookup_insert.
      destruct (decide (name docset = key)) as [<-|Hne]; [now intros [= <-]|].
      apply Hk.
    - unfold addDocset in Ha. rewrite Hv in Ha. inversion Ha; now subst. }
  split.
  { intros key key' d. rewrite remove_docs, lookup_delete.
    destruct (decide (key = key')); [discriminate|apply Hk]. }
  split.
  { intros key d. destruct (clear_state env s) as [-> _]. now rewrite lookup_empty. }
  split.
  { unfold names, docsets. apply keys_are_names.
    apply Forall_forall. intros [key d] Hin. apply elem_of_map_to_list in Hin.
    cbn. now apply Hk. }
  intros key Hne Hn Hbad.
  destruct (entry_unknown env key s Hn) as (_ & Hd & _).
  specialize (Hbad key (defaultDocset env)). rewrite Hd, lookup_insert_eq in Hbad.
  specialize (Hbad eq_refl). cbn in Hbad. congruence.
Qed.

Lemma keyedByName_kept_witness :
  names Samples.withJava = map name (docsets Samples.withJava)
  /\ keyedByName (fst (remove Samples.env "Java" Samples.withJava)).
Proof.
  assert (Hk : keyedByName Samples.withJava).
  { intros key d. unfold Samples.withJava. cbn.
    intros H. apply lookup_singleton_Some in H as [<- <-]. reflexivity. }
  destruct (keyedByName_kept Samples.env Samples.withJava Hk) as (_ & Hr & _ & Hn & _).
  split; [exact Hn|apply Hr].
Defined.

(** X8: the four accessors agree: [names] lists every name once, [count] is
    the number of names and of [docsets], [contains] holds of exactly the
    names [names] lists, and every docset of [docsets] is filed under one of
    them. *)
Theorem accessors_agree s :
  NoDup (names s)
  /\ length (names s) = count s
  /\ length (docsets s) = count s
  /\ (forall key, contains key s = true <-> In key (names s))
  /\ (forall d, In d (docsets s) <->
                exists key, In key (names s) /\ m_docs s !! key = Some d).
Proof.
  assert (Hkey : forall key, In key (names s) <-> is_Some (m_docs s !! key)).
  { intros key. unfold names. rewrite <- list_elem_of_In, list_elem_of_fmap. split.
    - intros ([k d] & -> & Hin). apply elem_of_map_to_list in Hin. cbn. eauto.
    - intros [d Hd]. exists (key, d). split; [reflexivity|].
      now apply elem_of_map_to_list. }
  split; [unfold names; apply NoDup_fst_map_to_list|].
  split; [unfold names, count; now rewrite length_fmap, length_map_to_list|].
  split; [unfold docsets, count; now rewrite length_fmap, length_map_to_list|].
  split.
  { intros key. rewrite Hkey. unfold contains. apply bool_decide_eq_true. }
  intros d. unfold docsets. rewrite <- list_elem_of_In, list_elem_of_fmap. split.
  - intros ([k d'] & -> & Hin). apply elem_of_map_to_list in Hin. cbn.
    exists k. split; [apply Hkey; eauto|exact Hin].
  - intros (key & _ & Hd). exists (key, d). split; [reflexivity|].
    now apply elem_of_map_to_list.
Qed.

End RegistryMore.

(** ** What a search finds *)
Module SearchMore.
Import QStr Normalize Sql Registry Spec Shape.
Local Open Scope list_scope.

Lemma fold_pairs {A B C} (f : A -> list B * list C) l a b :
  fold_left (fun acc x => let '(rs, fx) := f x in (fst acc ++ rs, snd acc ++ fx)) l (a, b)
  = (a ++ concat (map (fun x => fst (f x)) l), b ++ concat (map (fun x => snd (f x)) l)).
Proof.
  revert a b. induction l as [|x l IH]; intros a b; cbn.
  - now rewrite !app_nil_r.
  - destruct (f x) as [rs fx]. cbn. now rewrite IH, <- !app_assoc.
Qed.

(** The loop over the docsets puts the results of the docsets one behind
    the other. *)
Lemma accumulate_concat env s rawQuery :
  accumulate env s rawQuery
  = (concat (map (fun d => fst (searchOne env (closedDbs s) (parseQuery env rawQuery) d))
                 (docsets s)),
     concat (map (fun d => snd (searchOne env (closedDbs s) (parseQuery env rawQuery) d))
                 (docsets s))).
Proof. unfold accumulate. now rewrite fold_pairs. Qed.

Lemma searchDocset_rows env closed docset preparedQuery :
  fst (searchDocset env closed docset preparedQuery)
  = exec env closed (db docset) (searchStatement (type docset) preparedQuery false)
    ++ (if (List.length (exec env closed (db docset)
                           (searchStatement (type docset) preparedQuery false)) <? 100)%nat
        then exec env closed (db docset) (searchStatement (type docset) preparedQuery true)
        else []).
Proof.
  unfold searchDocset. cbn [searchLoop List.length app].
  change (0 <? 100)%nat with true. cbv iota.
  destruct (List.length _ <? 100)%nat; cbn; [reflexivity|now rewrite app_nil_r].
Qed.












End SearchMore.

(** ** Which symbols the statements of a search let through *)
Module LikeFacts.
Import QStr Normalize Sql Registry Spec Shape.
Local Open Scope list_scope.
Local Arguments String.append !_ _ /.











Section Term.
Context (preparedQuery term : string).
Hypothesis Hterm : tokens backslash false preparedQuery = literal term.





End Term.




(** An escaped wildcard stands for itself. *)
Example escaped_term : tokens backslash false "a\_l\%" = literal "a_l%".
Proof. reflexivity. Qed.







End LikeFacts.

(** ** Looking up the symbols of a page *)
Module LookupFacts.
Import QStr Normalize Sql Registry Spec Shape.
Local Open Scope list_scope.
Local Arguments String.append !_ _ /.

Lemma concat_map_perm {A B} (f : A -> list B) l l' :
  Permutation l l' -> Permutation (concat (map f l)) (concat (map f l')).
Proof.
  induction 1 as [|x l l' _ IH|x y l|l l' l'' _ IH1 _ IH2]; cbn.
  - reflexivity.
  - now apply Permutation_app_head.
  - rewrite !app_assoc. apply Permutation_app_tail, Permutation_app_comm.
  - now transitivity (concat (map f l')).
Qed.

Lemma searchOne_no_connection env closed query docset :
  db docset = None -> fst (searchOne env closed query docset) = [].
Proof.
  intros Hdb. unfold searchOne. destruct (_ && _); [reflexivity|].
  pose proof (SearchMore.searchDocset_rows env closed docset (sanitizedQuery query)) as H.
  destruct (searchDocset env closed docset (sanitizedQuery query)) as [found fx].
  cbn [fst] in *. rewrite H, Hdb. cbn. reflexivity.
Qed.

(** X13: the default docset that a lookup under an unknown name leaves in
    the registry (through [entry] or through [relatedLinks]) gives nothing
    to a search: a query accumulates the results it accumulated before, in
    the order of the docsets. *)
Theorem unknown_lookup_keeps_results env key path s rawQuery :
  m_docs s !! key = None ->
  snd (fst (relatedLinks env key path s)) = snd (entry env key s)
  /\ Permutation (fst (accumulate env (snd (entry env key s)) rawQuery))
                 (fst (accumulate env s rawQuery)).
Proof.
  intros Hn. split.
  { unfold relatedLinks. now destruct (entry env key s). }
  destruct (RegistryMore.entry_unknown env key s Hn) as (_ & Hd & Hc).
  rewrite !SearchMore.accumulate_concat. cbn [fst]. rewrite Hc.
  set (f := fun d => fst (searchOne env (closedDbs s) (parseQuery env rawQuery) d)).
  assert (Hp : Permutation (docsets (snd (entry env key s)))
                           (defaultDocset env :: docsets s)).
  { unfold docsets. rewrite Hd.
    rewrite (map_to_list_insert _ _ _ Hn). reflexivity. }
  rewrite (concat_map_perm f _ _ Hp). cbn [map concat].
  unfold f at 1. now rewrite searchOne_no_connection.
Qed.

Lemma unknown_lookup_keeps_results_witness :
  Permutation
    (fst (accumulate Samples.env (snd (entry Samples.env "Python" Samples.withJava)) "list"))
    (fst (accumulate Samples.env Samples.withJava "list")).
Proof.
  apply (unknown_lookup_keeps_results Samples.env "Python" "index.html"
           Samples.withJava "list").
  vm_compute. reflexivity.
Defined.

Lemma withoutFragment_plain page :
  hasChar "#" page = false -> withoutFragment page = page.
Proof.
  induction page as [|c page IH]; cbn; [reflexivity|].
  destruct (Ascii.eqb c "#"); [discriminate|]. intros H. now rewrite IH.
Qed.

Lemma withoutFragment_anchor page anchor :
  hasChar "#" page = false -> withoutFragment (page ++ String "#" anchor) = page.
Proof.
  induction page as [|c page IH]; cbn; [reflexivity|].
  destruct (Ascii.eqb c "#"); [discriminate|]. intros H. now rewrite IH.
Qed.

(** X14: [relatedLinks] does not look at the anchor of the path it is
    given: with any anchor behind the page it returns what it returns for
    the page alone, and every result it returns carries the docset name it
    was called with. *)
Theorem relatedLinks_ignores_anchor env docsetName page anchor s :
  hasChar "#" page = false ->
  relatedLinks env docsetName (page ++ "#" ++ anchor) s
  = relatedLinks env docsetName page s
  /\ (forall results r,
        fst (fst (relatedLinks env docsetName page s)) = Returned results ->
        In r results -> Registry.docsetName r = docsetName).
Proof.
  intros H. split.
  { pose proof (withoutFragment_anchor page anchor H) as Ha.
    unfold relatedLinks. cbn [String.append].
    now rewrite Ha, (withoutFragment_plain _ H). }
  intros results r Hres Hin.
  unfold relatedLinks in Hres. destruct (entry env docsetName s) as [e s1].
  cbn in Hres. inversion Hres; subst. clear Hres.
  apply in_map_iff in Hin as (row & <- & _).
  unfold relatedOfRow. now destruct (normalizeName _ _ _).
Qed.

Lemma relatedLinks_ignores_anchor_witness :
  relatedLinks Samples.env "Java" ("list.html" ++ "#" ++ "top") Samples.withJava
  = relatedLinks Samples.env "Java" "list.html" Samples.withJava.
Proof.
  apply (relatedLinks_ignores_anchor Samples.env "Java" "list.html" "top"
           Samples.withJava).
  reflexivity.
Defined.











End LookupFacts.

(** ** Walking the docset folders *)
Module FolderFacts.
Import QStr Normalize Sql Registry Spec Folders Shape.
Local Open Scope list_scope.
Local Arguments String.append !_ _ /.

(** Induction over a folder with all the folders in it. *)
Lemma Dir_induct (P : Dir -> Prop) :
  (forall subdirs, Forall (fun entry => P (snd entry)) subdirs -> P (Folder subdirs)) ->
  forall folder, P folder.
Proof.
  intros H. fix IH 1. intros [subdirs]. apply H.
  induction subdirs as [|[dirName subdir] rest IHrest]; constructor.
  - apply IH.
  - exact IHrest.
Qed.

Lemma invokeAddDocset_state env disk path acc :
  m_docs (fst (invokeAddDocset env disk path acc))
  = (if isValid (loadDocset disk path)
     then <[name (loadDocset disk path) := loadDocset disk path]> (m_docs (fst acc))
     else m_docs (fst acc))
  /\ m_lastQuery (fst (invokeAddDocset env disk path acc)) = m_lastQuery (fst acc)
  /\ m_queryResults (fst (invokeAddDocset env disk path acc)) = m_queryResults (fst acc)
  /\ exists more, snd (invokeAddDocset env disk path acc) = snd acc ++ more.
Proof.
  unfold invokeAddDocset. destruct (isValid (loadDocset disk path)) eqn:Hv.
  - rewrite (RegistryMore.addDocset_valid env _ _ Hv). cbn. repeat split. eauto.
  - unfold addDocset. rewrite Hv. cbn. repeat split. exists []. now rewrite app_nil_r.
Qed.

Lemma invokeAll_state env disk paths acc :
  let out := fold_left (fun a p => invokeAddDocset env disk p a) paths acc in
  m_docs (fst out) = overwriteAll (m_docs (fst acc)) (map (loadDocset disk) paths)
  /\ m_lastQuery (fst out) = m_lastQuery (fst acc)
  /\ m_queryResults (fst out) = m_queryResults (fst acc)
  /\ exists more, snd out = snd acc ++ more.
Proof.
  cbv zeta. revert acc. induction paths as [|p paths IH]; intros acc; cbn [fold_left map].
  - repeat split. exists []. now rewrite app_nil_r.
  - destruct (IH (invokeAddDocset env disk p acc)) as (H1 & H2 & H3 & more & H4).
    destruct (invokeAddDocset_state env disk p acc) as (K1 & K2 & K3 & more0 & K4).
    unfold overwriteAll in *. cbn [fold_left].
    split; [now rewrite H1, K1|]. split; [congruence|]. split; [congruence|].
    exists (more0 ++ more). now rewrite H4, K4, app_assoc.
Qed.

(** The walk hands over the folders [docsetPaths] lists, one after the
    other. *)
Lemma addDocsetsFromFolder_paths env disk folder :
  forall path acc,
    addDocsetsFromFolder env disk path folder acc
    = fold_left (fun a p => invokeAddDocset env disk p a) (docsetPaths path folder) acc.
Proof.
  induction folder as [subdirs IH] using Dir_induct. intros path acc.
  cbn [addDocsetsFromFolder docsetPaths]. revert acc.
  induction IH as [|[dirName subdir] rest Hsub _ IHrest]; intros acc; [reflexivity|].
  cbn [snd] in Hsub. rewrite fold_left_app, IHrest.
  destruct (String.eqb (suffix dirName) "docset"); [reflexivity|].
  now rewrite Hsub.
Qed.

Lemma docsetPaths_suffix folder :
  forall path p,
    In p (docsetPaths path folder) ->
    exists parent dirName,
      p = absoluteFilePath parent dirName /\ suffix dirName = "docset".
Proof.
  induction folder as [subdirs IH] using Dir_induct. intros path p.
  cbn [docsetPaths].
  induction IH as [|[dirName subdir] rest Hsub _ IHrest]; [intros []|].
  cbn [snd] in Hsub. rewrite in_app_iff. intros [H|H]; [|exact (IHrest H)].
  destruct (String.eqb (suffix dirName) "docset") eqn:E.
  - destruct H as [<-|[]]. apply String.eqb_eq in E. eauto.
  - exact (Hsub _ _ H).
Qed.

Lemma overwriteAll_keyed (docs : gmap string Docset) l :
  (forall key d, docs !! key = Some d -> name d = key) ->
  forall key d, overwriteAll docs l !! key = Some d -> name d = key.
Proof.
  revert docs. unfold overwriteAll.
  induction l as [|x l IH]; intros docs Hk; cbn [fold_left]; [exact Hk|].
  apply IH. destruct (isValid x); [|exact Hk].
  intros key d. rewrite lookup_insert.
  destruct (decide (name x = key)) as [<-|]; [now intros [= <-]|apply Hk].
Qed.

Lemma overwriteAll_from (docs : gmap string Docset) l key d :
  overwriteAll docs l !! key = Some d ->
  docs !! key = Some d \/ In d l /\ isValid d = true.
Proof.
  revert docs. unfold overwriteAll.
  induction l as [|x l IH]; intros docs; cbn [fold_left]; [now left|].
  intros H. destruct (IH _ H) as [H'|[H' Hv]]; [|right; split; [now right|exact Hv]].
  destruct (isValid x) eqn:Hx; [|now left].
  rewrite lookup_insert in H'. destruct (decide (name x = key)); [|now left].
  inversion H'; subst. right. split; [now left|exact Hx].
Qed.

(** X17: [addDocsetsFromFolder] walks the folder depth first, hands every
    directory whose suffix is [docset] to [addDocset] and does not look into
    such a directory.  After the walk the registry holds what it held, with
    the valid docsets among those overwriting, in the order of the walk,
    whatever stood under their names; an entry that is new is a valid docset
    loaded from a directory with that suffix.  The query number is as
    before, and docsets filed under their names stay so. *)
Theorem addDocsetsFromFolder_walk env disk path folder acc :
  addDocsetsFromFolder env disk path folder acc
  = fold_left (fun a p => invokeAddDocset env disk p a) (docsetPaths path folder) acc
  /\ m_docs (fst (addDocsetsFromFolder env disk path folder acc))
     = overwriteAll (m_docs (fst acc)) (map (loadDocset disk) (docsetPaths path folder))
  /\ (forall key d,
        m_docs (fst (addDocsetsFromFolder env disk path folder acc)) !! key = Some d ->
        m_docs (fst acc) !! key = Some d
        \/ isValid d = true
           /\ exists parent dirName,
                d = loadDocset disk (absoluteFilePath parent dirName)
                /\ suffix dirName = "docset")
  /\ m_lastQuery (fst (addDocsetsFromFolder env disk path folder acc))
     = m_lastQuery (fst acc)
  /\ (keyedByName (fst acc) ->
      keyedByName (fst (addDocsetsFromFolder env disk path folder acc))).
Proof.
  rewrite addDocsetsFromFolder_paths.
  destruct (invokeAll_state env disk (docsetPaths path folder) acc) as (H1 & H2 & _).
  cbv zeta in *. split; [reflexivity|]. split; [exact H1|]. split.
  { intros key d Hd. rewrite H1 in Hd.
    apply overwriteAll_from in Hd as [Hd|[Hd Hv]]; [now left|right].
    split; [exact Hv|]. apply in_map_iff in Hd as (p & <- & Hp).
    apply docsetPaths_suffix in Hp as (parent & dirName & -> & Hs). eauto. }
  split; [exact H2|].
  intros Hk key d. rewrite H1. now apply overwriteAll_keyed.
Qed.

Lemma addDocsetsFromFolder_walk_witness :
  keyedByName (fst (addDocsetsFromFolder Samples.env MoreSamples.disk "/data"
                      MoreSamples.dataFolder (Samples.empty, [])))
  /\ names (fst (addDocsetsFromFolder Samples.env MoreSamples.disk "/data"
                   MoreSamples.dataFolder (Samples.empty, [])))
     = ["C++"; "Java"].
Proof.
  split; [|vm_compute; reflexivity].
  apply (addDocsetsFromFolder_walk Samples.env MoreSamples.disk "/data"
           MoreSamples.dataFolder (Samples.empty, [])).
  intros key d H. cbn in H. now rewrite lookup_empty in H.
Defined.

(** The folders [initialiseDocsets] walks: the one it is given and, where
    there is one, the folder [docsets] beside the application. *)
Lemma initialiseDocsets_paths env disk path s :
  initialiseDocsets env disk path s
  = fold_left (fun a p => invokeAddDocset env disk p a)
      (docsetPaths path (folderAt disk path)
       ++ (if hasDocsetsDir disk
           then docsetPaths (absoluteFilePath (applicationDirPath disk) "docsets")
                  (folderAt disk (absoluteFilePath (applicationDirPath disk) "docsets"))
           else []))
      (clear env s).
Proof.
  unfold initialiseDocsets. rewrite fold_left_app, !addDocsetsFromFolder_paths.
  now destruct (hasDocsetsDir disk).
Qed.

(** X18: [initialiseDocsets] starts from nothing: the docsets it leaves in
    the registry are the valid ones found in the folder it is given and in
    the folder [docsets] of the application, later ones overwriting earlier
    ones of the same name, whatever the registry held before; each is filed
    under its own name.  The connection of every docset held before is
    closed first, and the query number is not touched. *)
Theorem initialiseDocsets_fresh env disk path s :
  let found :=
    docsetPaths path (folderAt disk path)
    ++ (if hasDocsetsDir disk
        then docsetPaths (absoluteFilePath (applicationDirPath disk) "docsets")
               (folderAt disk (absoluteFilePath (applicationDirPath disk) "docsets"))
        else []) in
  m_docs (fst (initialiseDocsets env disk path s))
  = overwriteAll ∅ (map (loadDocset disk) found)
  /\ (forall s', m_docs (fst (initialiseDocsets env disk path s'))
                 = m_docs (fst (initialiseDocsets env disk path s)))
  /\ keyedByName (fst (initialiseDocsets env disk path s))
  /\ (exists more,
        snd (initialiseDocsets env disk path s)
        = map (fun d => DbClose (db d)) (docsets s) ++ more)
  /\ m_lastQuery (fst (initialiseDocsets env disk path s)) = m_lastQuery s.
Proof.
  cbv zeta.
  assert (Hdocs : forall s0,
    m_docs (fst (initialiseDocsets env disk path s0))
    = overwriteAll ∅ (map (loadDocset disk)
        (docsetPaths path (folderAt disk path)
         ++ (if hasDocsetsDir disk
             then docsetPaths (absoluteFilePath (applicationDirPath disk) "docsets")
                    (folderAt disk (absoluteFilePath (applicationDirPath disk) "docsets"))
             else [])))).
  { intros s0. rewrite initialiseDocsets_paths.
    destruct (invokeAll_state env disk
                (docsetPaths path (folderAt disk path)
                 ++ (if hasDocsetsDir disk
                     then docsetPaths (absoluteFilePath (applicationDirPath disk) "docsets")
                            (folderAt disk
                               (absoluteFilePath (applicationDirPath disk) "docsets"))
                     else []))
                (clear env s0)) as (H1 & _).
    cbv zeta in H1. rewrite H1.
    now destruct (RegistryMore.clear_state env s0) as (-> & _). }
  split; [apply Hdocs|]. split; [intros s'; now rewrite !Hdocs|]. split.
  { intros key d. rewrite Hdocs. apply overwriteAll_keyed.
    intros key' d' H. now rewrite lookup_empty in H. }
  rewrite initialiseDocsets_paths.
  destruct (invokeAll_state env disk
              (docsetPaths path (folderAt disk path)
               ++ (if hasDocsetsDir disk
                   then docsetPaths (absoluteFilePath (applicationDirPath disk) "docsets")
                          (folderAt disk
                             (absoluteFilePath (applicationDirPath disk) "docsets"))
                   else []))
              (clear env s)) as (_ & H2 & _ & more & H4).
  cbv zeta in *.
  destruct (RegistryMore.clear_state env s) as (_ & _ & He & _ & _ & Hl & _).
  split; [exists more; now rewrite H4, He|]. congruence.
Qed.

(** On the sample disk: the Java docset is found at the top, the C++ docset
    one level down, the Python docset beside the application; the folder in
    the Java docset is not looked at and the docset that does not load is
    left out. *)
Example initialiseDocsets_sample :
  names (fst (initialiseDocsets Samples.env MoreSamples.disk "/data" MoreSamples.withBoth))
  = ["C++"; "Java"; "Python"]
  /\ snd (initialiseDocsets Samples.env MoreSamples.disk "/data" MoreSamples.withBoth)
     = [DbClose (Some 2); DbClose (Some 1)].
Proof. repeat split; vm_compute; reflexivity. Qed.

Lemma lastIndexOf_no_dot s i seen :
  hasChar "." s = false -> lastIndexOf_from i "." s seen = seen.
Proof.
  revert i seen.
  induction s as [|c s IH]; intros i seen; cbn [lastIndexOf_from startsWith hasChar];
    [reflexivity|].
  rewrite (Ascii.eqb_sym "." c). destruct (Ascii.eqb c "."); [discriminate|].
  cbn [orb]. apply IH.
Qed.

Lemma lastIndexOf_last_dot front back i seen :
  hasChar "." back = false ->
  lastIndexOf_from i "." (front ++ String "." back) seen
  = Some (i + String.length front).
Proof.
  intros Hb. revert i seen. induction front as [|c front IH]; intros i seen.
  - cbn [String.append lastIndexOf_from startsWith String.length].
    rewrite Ascii.eqb_refl, (lastIndexOf_no_dot _ _ _ Hb). f_equal. lia.
  - change (String c front ++ String "." back)%string
      with (String c (front ++ String "." back)).
    cbn [lastIndexOf_from String.length]. rewrite IH. f_equal. lia.
Qed.

Lemma last_dot s :
  hasChar "." s = true ->
  exists front back,
    s = (front ++ String "." back)%string /\ hasChar "." back = false.
Proof.
  induction s as [|c s IH]; cbn [hasChar]; [discriminate|].
  destruct (hasChar "." s) eqn:Hs.
  - intros _. destruct (IH eq_refl) as (front & back & -> & Hb).
    exists (String c front), back. auto.
  - rewrite orb_false_r. intros Hc. apply Ascii.eqb_eq in Hc. subst c.
    exists EmptyString, s. auto.
Qed.

Lemma substring_all s : substring 0 (String.length s) s = s.
Proof. induction s as [|c s IH]; cbn; [reflexivity|]. now rewrite IH. Qed.

Lemma substring_skip front s m :
  substring (String.length front) m (front ++ s) = substring 0 m s.
Proof.
  induction front as [|c front IH]; [reflexivity|].
  change (String c front ++ s)%string with (String c (front ++ s)). cbn. exact IH.
Qed.

(** [suffix] is what stands behind the last dot. *)
Lemma suffix_last_dot front back :
  hasChar "." back = false -> suffix (front ++ String "." back) = back.
Proof.
  intros Hb. unfold suffix, lastIndexOf.
  rewrite (lastIndexOf_last_dot _ _ _ _ Hb). cbn [Nat.add].
  pose proof (substring_skip (front ++ ".") back (String.length back)) as H.
  rewrite NormalizeFacts.append_assoc in H. cbn [String.append] in H.
  rewrite !NormalizeFacts.length_append in *. cbn [String.length] in *.
  replace (String.length front + S (String.length back) - S (String.length front))
    with (String.length back) by lia.
  replace (S (String.length front)) with (String.length front + 1) by lia.
  rewrite H. apply substring_all.
Qed.

Lemma suffix_no_dot s : hasChar "." s = false -> suffix s = EmptyString.
Proof.
  intros H. unfold suffix, lastIndexOf. now rewrite lastIndexOf_no_dot.
Qed.

(** X19: the test of line 244 takes a directory for a docset exactly when
    its name ends in [.docset] (the name [.docset] itself included), so
    every path the walk hands to [addDocset] ends in [.docset]. *)
Theorem docset_directories dirName :
  (String.eqb (suffix dirName) "docset" = true
   <-> exists base, dirName = (base ++ ".docset")%string)
  /\ (forall path folder p,
        In p (docsetPaths path folder) ->
        exists front, p = (front ++ ".docset")%string).
Proof.
  assert (Hiff : forall n, suffix n = "docset"
                           <-> exists base, n = (base ++ ".docset")%string).
  { intros n. split.
    - intros H. destruct (hasChar "." n) eqn:Hd.
      + destruct (last_dot _ Hd) as (front & back & -> & Hb).
        rewrite (suffix_last_dot _ _ Hb) in H. subst back. now exists front.
      + rewrite (suffix_no_dot _ Hd) in H. discriminate.
    - intros [base ->]. now apply (suffix_last_dot base "docset"). }
  split.
  - rewrite String.eqb_eq. apply Hiff.
  - intros path folder p Hp.
    apply docsetPaths_suffix in Hp as (parent & n & -> & Hs).
    apply Hiff in Hs as [base ->]. unfold absoluteFilePath.
    exists (parent ++ "/" ++ base)%string.
    now rewrite !NormalizeFacts.append_assoc.
Qed.

End FolderFacts.

(** ** Query numbers: posting, cancelling, signalling *)
Module QueueMore.
Import QStr Normalize Sql Registry Spec Shape.
Local Open Scope list_scope.
Local Open Scope Z_scope.




Lemma sorted_snoc (l : list Z) x :
  StronglySorted Z.lt l -> Forall (fun y => y < x) l -> StronglySorted Z.lt (l ++ [x]).
Proof.
  induction 1 as [|y l Hl IH Hy]; intros Hx; cbn.
  - repeat constructor.
  - inversion Hx; subst. constructor; [now apply IH|].
    apply Forall_app. split; [assumption|]. now repeat constructor.
Qed.

Lemma numbered_step env e sys sys' :
  consistent sys -> numbered sys -> step env e sys = Some sys' -> numbered sys'.
Proof.
  intros [Hp Hr] [Hs Hn] Hstep.
  destruct e as [rawQuery| |docset|docsetName| |]; cbn in Hstep.
  - unfold runQuery in Hstep.
    destruct (increment _) as [n|] eqn:Hi; [|discriminate].
    apply QueueFacts.increment_spec in Hi as [-> _]. inversion Hstep; subst.
    split; cbn.
    + rewrite map_app. cbn. apply sorted_snoc; [exact Hs|].
      apply Forall_map. eapply Forall_impl; [exact Hp|]. cbn. intros; lia.
    + destruct (running sys) as [[results queryNum]|]; [|exact I].
      apply Forall_app. split; [exact Hn|]. repeat constructor. cbn. lia.
  - unfold invalidateQueries in Hstep.
    destruct (increment _) as [n|]; [|discriminate]. inversion Hstep; subst.
    split; assumption.
  - destruct (addDocset env docset (registry sys)) as [[r fx]|]; [|discriminate].
    inversion Hstep; subst. split; assumption.
  - inversion Hstep; subst. split; assumption.
  - destruct (running sys) as [[? ?]|]; [discriminate|].
    destruct (posted sys) as [|[raw queryNum] rest]; [discriminate|].
    inversion Hstep; subst. cbn in Hs. apply StronglySorted_inv in Hs as [Hs Hhd].
    split; cbn; [exact Hs|].
    destruct (_runQuery_search env raw queryNum (registry sys)) as [[? ?]|]; [|exact I].
    rewrite List.Forall_map in Hhd. exact Hhd.
  - destruct (running sys) as [[results queryNum]|]; [|discriminate].
    inversion Hstep; subst. split; [exact Hs|exact I].
Qed.

(** X21: however a system came about from one with nothing posted, the
    calls of [_runQuery] still posted carry strictly rising numbers in the
    order they were posted, none above [m_lastQuery], and a call that is
    running carries a number below all of them: at any moment one call at
    most has the number that lets it publish. *)
Theorem calls_are_numbered env s0 history sys :
  run env history (mkSystem s0 [] None) = Some sys ->
  StronglySorted Z.lt (map snd (posted sys))
  /\ Forall (fun call => snd call <= m_lastQuery (registry sys)) (posted sys)
  /\ match running sys with
     | Some (_, queryNum) =>
         queryNum <= m_lastQuery (registry sys)
         /\ Forall (fun call => queryNum < snd call) (posted sys)
     | None => True
     end.
Proof.
  intros Hrun.
  assert (H : consistent sys /\ numbered sys).
  { assert (Hstart : consistent (mkSystem s0 [] None) /\ numbered (mkSystem s0 [] None))
      by (split; [apply QueueFacts.consistent_idle|split; [constructor|exact I]]).
    revert Hrun Hstart. generalize (mkSystem s0 [] None).
    induction history as [|e history IH]; intros start Hrun [Hc Hn]; cbn in Hrun.
    - inversion Hrun; now subst.
    - destruct (step env e start) as [sys1|] eqn:Hstep; [|discriminate]. cbn in Hrun.
      apply (IH _ Hrun). split.
      + exact (QueueFacts.consistent_step _ _ _ _ Hc Hstep).
      + exact (numbered_step _ _ _ _ Hc Hn Hstep). }
  destruct H as [[Hp Hr] [Hs Hn]].
  split; [exact Hs|]. split; [exact Hp|].
  destruct (running sys) as [[results queryNum]|]; [split; assumption|exact I].
Qed.

Lemma calls_are_numbered_witness :
  StronglySorted Z.lt (map snd (posted Samples.twoPosted)).
Proof.
  apply (calls_are_numbered Samples.env Samples.withJava
           [CallRunQuery "array"; CallRunQuery "list"] Samples.twoPosted).
  vm_compute. reflexivity.
Defined.








Lemma searchDocset_effects env closed docset preparedQuery :
  Forall (fun e => exists q, e = DbExec (db docset) q)
         (snd (searchDocset env closed docset preparedQuery)).
Proof.
  unfold searchDocset. cbn [searchLoop List.length app].
  change (0 <? 100)%nat with true. cbv iota.
  destruct (List.length _ <? 100)%nat; cbn; repeat constructor; eauto.
Qed.

Lemma accumulate_effects env s rawQuery :
  Forall (fun e => exists docset q, In docset (docsets s) /\ e = DbExec (db docset) q)
         (snd (accumulate env s rawQuery)).
Proof.
  rewrite SearchMore.accumulate_concat. cbn [snd].
  apply List.Forall_forall. intros e He.
  apply in_concat in He as (fx & Hfx & He).
  apply in_map_iff in Hfx as (docset & <- & Hd).
  unfold searchOne in He. destruct (_ && _); [destruct He|].
  pose proof (searchDocset_effects env (closedDbs s) docset
                (sanitizedQuery (parseQuery env rawQuery))) as Hall.
  destruct (searchDocset _ _ _ _) as [found fx]. cbn [snd] in *.
  rewrite List.Forall_forall in Hall. destruct (Hall e He) as [q ->]. eauto.
Qed.

(** X24: a call of [_runQuery] touches nothing of the registry but the
    published results: docsets, closed connections and query number are as
    before.  With a number that is not [m_lastQuery] it does nothing at all.
    With the number [m_lastQuery] it sends statements to connections of
    docsets of the registry, closes none, publishes the sorted results and
    emits [queryCompleted] once, as the last thing it does; so the signal
    is emitted exactly when results are published. *)
Theorem runQuery_effects env rawQuery queryNum s :
  m_docs (fst (_runQuery env rawQuery queryNum s)) = m_docs s
  /\ closedDbs (fst (_runQuery env rawQuery queryNum s)) = closedDbs s
  /\ m_lastQuery (fst (_runQuery env rawQuery queryNum s)) = m_lastQuery s
  /\ (queryNum <> m_lastQuery s -> _runQuery env rawQuery queryNum s = (s, []))
  /\ (queryNum = m_lastQuery s ->
      m_queryResults (fst (_runQuery env rawQuery queryNum s))
      = qSort env (fst (accumulate env s rawQuery))
      /\ exists statements,
           snd (_runQuery env rawQuery queryNum s) = statements ++ [Emit_queryCompleted]
           /\ Forall (fun e => exists docset q,
                         In docset (docsets s) /\ e = DbExec (db docset) q)
                     statements)
  /\ (In Emit_queryCompleted (snd (_runQuery env rawQuery queryNum s))
      <-> queryNum = m_lastQuery s).
Proof.
  destruct (decide (queryNum = m_lastQuery s)) as [->|Hne].
  - pose proof (accumulate_effects env s rawQuery) as Hfx.
    unfold _runQuery, _runQuery_publish. rewrite QueueFacts.search_latest.
    destruct (decide (m_lastQuery s <> m_lastQuery s)) as [Hd|_]; [congruence|].
    cbn. repeat split; try reflexivity; try congruence.
    + eexists. split; [reflexivity|exact Hfx].
    + intros _. apply in_app_iff. right. now left.
  - rewrite (QueueFacts.runQuery_stale env _ _ _ Hne). cbn.
    repeat split; try reflexivity; try congruence; try tauto.
Qed.

Lemma runQuery_effects_witness :
  _runQuery Samples.env "list" 7 Samples.withJava = (Samples.withJava, [])
  /\ In Emit_queryCompleted (snd (_runQuery Samples.env "list" 0 Samples.withJava)).
Proof.
  split.
  - apply (runQuery_effects Samples.env "list" 7 Samples.withJava). discriminate.
  - apply (runQuery_effects Samples.env "list" 0 Samples.withJava). reflexivity.
Defined.

End QueueMore.

(** ** More on name normalisation *)
Module NormalizeMore.
Import QStr Normalize Spec.
Local Open Scope list_scope.
Local Arguments String.append !_ _ /.

Lemma stripParams_prefix rawName :
  exists back, rawName = (stripParams rawName ++ back)%string.
Proof.
  unfold stripParams. destruct (matchMethodName rawName) as [g|] eqn:H.
  - apply NormalizeFacts.matchMethodName_spec in H.
    destruct H as [g _ _|g inner _ _]; [exists EmptyString|eauto].
    now rewrite NormalizeFacts.append_nil_r.
  - exists EmptyString. now rewrite NormalizeFacts.append_nil_r.
Qed.

Lemma join_last_two sep front parent display :
  exists before,
    join sep (front ++ [parent; display])
    = (before ++ parent ++ sep ++ display)%string.
Proof.
  induction front as [|x front [before IH]].
  - exists EmptyString. reflexivity.
  - exists (x ++ sep ++ before)%string. cbn [app].
    rewrite NormalizeFacts.join_more by (now destruct front).
    now rewrite IH, !NormalizeFacts.append_assoc.
Qed.

(** What the rounds of the loop keep: the name is the end of the stripped
    name, and the parent either was never set or stands right before it. *)
Lemma splitStep_cuts stripped parent0 hint st sep :
  In sep separators ->
  (exists before, stripped = (before ++ fst st)%string)
  /\ (st = (stripped, parent0)
      \/ exists before sep0,
           In sep0 separators
           /\ stripped = (before ++ snd st ++ sep0 ++ fst st)%string) ->
  (exists before, stripped = (before ++ fst (splitStep hint st sep))%string)
  /\ (splitStep hint st sep = (stripped, parent0)
      \/ exists before sep0,
           In sep0 separators
           /\ stripped = (before ++ snd (splitStep hint st sep) ++ sep0
                          ++ fst (splitStep hint st sep))%string).
Proof.
  intros Hsep [[y Hy] Hinv]. destruct st as [item parent]. cbn [fst snd] in *.
  destruct (qualifies item sep && isNull hint) eqn:E.
  - apply andb_true_iff in E as [Hq Hnull]. destruct hint; [discriminate|].
    assert (Hne : sep <> EmptyString) by (cbn in Hsep; intuition (subst; discriminate)).
    destruct (NormalizeFacts.splitStep_qualifies item parent sep Hne Hq)
      as (front & parent' & display & _ & Hjoin & _ & _ & ->).
    destruct (join_last_two sep front parent' display) as [z Hz].
    rewrite Hz in Hjoin. cbn [fst snd]. split.
    + exists (y ++ z ++ parent' ++ sep)%string.
      now rewrite Hy, Hjoin, !NormalizeFacts.append_assoc.
    + right. exists (y ++ z)%string, sep. split; [exact Hsep|].
      now rewrite Hy, Hjoin, !NormalizeFacts.append_assoc.
  - unfold splitStep. rewrite E. cbn [fst snd]. split; [eauto|exact Hinv].
Qed.

(** X25: [normalizeName] only cuts: the stripped name is the beginning of
    the raw name, the displayed name is the end of the stripped name, and the
    parent, where the loop set it, stands in the stripped name right before
    the displayed name with one of the separators between them.  Nothing is
    added, so the displayed name is never longer than the raw name. *)
Theorem normalizeName_cuts rawName parent0 hint :
  (exists back, rawName = (stripParams rawName ++ back)%string)
  /\ (exists before,
        stripParams rawName
        = (before ++ fst (normalizeName rawName parent0 hint))%string)
  /\ (normalizeName rawName parent0 hint = (stripParams rawName, parent0)
      \/ exists before sep,
           In sep separators
           /\ stripParams rawName
              = (before ++ snd (normalizeName rawName parent0 hint) ++ sep
                 ++ fst (normalizeName rawName parent0 hint))%string)
  /\ String.length (fst (normalizeName rawName parent0 hint)) <= String.length rawName.
Proof.
  split; [apply stripParams_prefix|].
  assert (H : (exists before,
                 stripParams rawName
                 = (before ++ fst (normalizeName rawName parent0 hint))%string)
              /\ (normalizeName rawName parent0 hint = (stripParams rawName, parent0)
                  \/ exists before sep,
                       In sep separators
                       /\ stripParams rawName
                          = (before ++ snd (normalizeName rawName parent0 hint) ++ sep
                             ++ fst (normalizeName rawName parent0 hint))%string)).
  { unfold normalizeName, separators. cbn [fold_left].
    apply splitStep_cuts; [cbn; auto|].
    apply splitStep_cuts; [cbn; auto|].
    apply splitStep_cuts; [cbn; auto|].
    split; [exists EmptyString; reflexivity|now left]. }
  destruct H as [[before Hb] Hp]. split; [eauto|]. split; [exact Hp|].
  destruct (stripParams_prefix rawName) as [back Hback].
  apply (f_equal String.length) in Hback, Hb.
  rewrite NormalizeFacts.length_append in Hback, Hb. lia.
Qed.

Lemma hasChar_app c a b : hasChar c (a ++ b) = hasChar c a || hasChar c b.
Proof.
  induction a as [|x a IH]; cbn; [reflexivity|]. now rewrite IH, orb_assoc.
Qed.

Lemma indexOf_absent c sep' s i :
  hasChar c s = false -> indexOf_from i (String c sep') s = None.
Proof.
  revert i. induction s as [|a s IH]; intros i; cbn; [reflexivity|].
  rewrite (Ascii.eqb_sym c a). destruct (Ascii.eqb a c); [discriminate|].
  cbn. apply IH.
Qed.

Lemma qualifies_absent c sep' s :
  hasChar c s = false -> qualifies s (String c sep') = false.
Proof. intros H. unfold qualifies, indexOf. now rewrite indexOf_absent. Qed.

Lemma startsWith_self s t : startsWith s (s ++ t) = true.
Proof.
  induction s as [|a s IH]; cbn; [reflexivity|]. now rewrite Ascii.eqb_refl.
Qed.

Lemma indexOf_at_end c sep' g i :
  hasChar c g = false ->
  indexOf_from i (String c sep') (g ++ String c sep') = Some (i + String.length g).
Proof.
  revert i. induction g as [|a g IH]; intros i Hg.
  - cbn [String.append String.length indexOf_from].
    pose proof (startsWith_self (String c sep') EmptyString) as H.
    rewrite NormalizeFacts.append_nil_r in H. rewrite H. f_equal. lia.
  - cbn in Hg. apply orb_false_iff in Hg as [Ha Hg].
    cbn [String.append String.length indexOf_from startsWith].
    rewrite (Ascii.eqb_sym c a), Ha, (IH _ Hg). f_equal. lia.
Qed.

Lemma split_at_end c sep' g :
  hasChar c g = false ->
  split (g ++ String c sep') (String c sep') = [g; EmptyString].
Proof.
  unfold split. induction g as [|a g IH]; intros Hg.
  - cbn [String.append split_go].
    pose proof (startsWith_self (String c sep') EmptyString) as H.
    rewrite NormalizeFacts.append_nil_r in H. rewrite H.
    replace (String.length (String c sep') - 1) with (String.length sep')
      by (cbn [String.length]; lia).
    pose proof (NormalizeFacts.split_go_skip (String c sep') sep' EmptyString) as Hs.
    rewrite NormalizeFacts.append_nil_r in Hs. now rewrite Hs.
  - cbn in Hg. apply orb_false_iff in Hg as [Ha Hg].
    cbn [String.append split_go startsWith].
    rewrite (Ascii.eqb_sym c a), Ha, (IH Hg). reflexivity.
Qed.

Lemma splitStep_at_end c sep' g parent :
  g <> EmptyString -> hasChar c g = false ->
  splitStep None ((g ++ String c sep')%string, parent) (String c sep')
  = (EmptyString, g).
Proof.
  intros Hne Hg. unfold splitStep, qualifies, indexOf.
  rewrite (indexOf_at_end c sep' g 0 Hg).
  destruct g as [|a g]; [congruence|]. cbn [String.length Nat.add andb isNull].
  now rewrite (split_at_end c sep' (String a g) Hg).
Qed.

(** X26: a name that ends in a separator (and has no separator character
    or parenthesis before it) is split at that separator all the same: the
    displayed name comes out empty and the whole name before the separator
    becomes the parent. *)
Theorem normalizeName_trailing_separator g sep parent0 :
  In sep separators ->
  g <> EmptyString ->
  hasChar "(" g = false -> hasChar "." g = false ->
  hasChar ":" g = false -> hasChar "/" g = false ->
  normalizeName (g ++ sep) parent0 None = (EmptyString, g).
Proof.
  intros Hsep Hne Hp Hdot Hcolon Hslash.
  assert (Hstrip : stripParams (g ++ sep) = (g ++ sep)%string).
  { apply NormalizeFacts.stripParams_plain. rewrite hasChar_app, Hp.
    cbn in Hsep. destruct Hsep as [<-|[<-|[<-|[]]]]; reflexivity. }
  unfold normalizeName, separators. rewrite Hstrip. cbn [fold_left].
  cbn in Hsep. destruct Hsep as [<-|[<-|[<-|[]]]].
  - rewrite (splitStep_at_end "." "" g parent0 Hne Hdot). reflexivity.
  - assert (H1 : splitStep None ((g ++ "::")%string, parent0) "."
                 = ((g ++ "::")%string, parent0)).
    { unfold splitStep. rewrite qualifies_absent; [reflexivity|].
      now rewrite hasChar_app, Hdot. }
    rewrite H1, (splitStep_at_end ":" ":" g parent0 Hne Hcolon). reflexivity.
  - assert (H1 : splitStep None ((g ++ "/")%string, parent0) "."
                 = ((g ++ "/")%string, parent0)).
    { unfold splitStep. rewrite qualifies_absent; [reflexivity|].
      now rewrite hasChar_app, Hdot. }
    assert (H2 : splitStep None ((g ++ "/")%string, parent0) "::"
                 = ((g ++ "/")%string, parent0)).
    { unfold splitStep. rewrite qualifies_absent; [reflexivity|].
      now rewrite hasChar_app, Hcolon. }
    rewrite H1, H2, (splitStep_at_end "/" "" g parent0 Hne Hslash). reflexivity.
Qed.

Lemma normalizeName_trailing_separator_witness :
  normalizeName ("operator" ++ "/") "" None = ("", "operator").
Proof.
  apply (normalizeName_trailing_separator "operator" "/" "");
    [cbn; auto|discriminate|reflexivity..].
Defined.

End NormalizeMore.
